(** * funcx-web-service: the Redis task queue ([funcx_web_service/routes/redis_q.py])

    A shallow embedding of [RedisQueue] and [EndpointQueue] together with the
    part of the Redis server and of the [redis] client library they talk to,
    followed by the properties of the queue layer. *)

From stdpp Require Import gmap strings list fin_maps pretty.
From Stdlib Require Import NArith ZArith.

Local Open Scope string_scope.
Local Open Scope list_scope.

(** ** Python values the queue handles *)

(** [redis.StrictRedis(host=..., port=..., decode_responses=True)]: the client
    object.  Two clients built from the same arguments are distinct objects,
    [rc_id] tells them apart. *)
Record StrictRedis := mkStrictRedis {
  rc_id : nat;
  rc_host : string;
  rc_port : Z;
  rc_decode_responses : bool
}.

(** [class RedisQueue(object)]: the attributes set by [__init__]. *)
Record RedisQueue := mkRedisQueue {
  hostname : string;
  port : Z;
  redis_client : option StrictRedis;
  prefix : string
}.

(** [class EndpointQueue(RedisQueue)]: the inherited attributes and the two
    added by its own [__init__]. *)
Record EndpointQueue := mkEndpointQueue {
  super : RedisQueue;
  queue_name : string;
  endpoint : string
}.

(** The exceptions that travel through the queue methods.  [NotConnected]
    carries the queue it was raised for ([self.queue = queue]); [Empty] is
    [queue.Empty]; [ConnectionError] and [ResponseError] are those of
    [redis.exceptions]; [JSONDecodeError] and [TypeError] come out of
    [json.loads]. *)
Inductive exn :=
| NotConnected (queue : RedisQueue)
| Empty
| AttributeError
| ConnectionError
| ResponseError (msg : string)
| TypeError
| JSONDecodeError.

(** Modelled from the spec: [TaskState] and [Task] of
    [funcx_web_service.models.tasks], which is imported by the queue module
    but is not among the sources.  The spec gives the task the mutable
    attributes [task_id], [status] and [endpoint], and the states
    CREATED, WAITING_FOR_EP, RUNNING, SUCCESS and FAILED. *)
Inductive TaskState := CREATED | WAITING_FOR_EP | RUNNING | SUCCESS | FAILED.

Record Task := mkTask {
  task_id : string;
  status : TaskState;
  task_endpoint : option string
}.

(** [json.dumps] on the JSON-serializable values [V] and [json.loads], which
    fails on text that is not JSON. *)
Class Json (V : Type) := {
  json_dumps : V → string;
  json_loads : string → option V
}.

(** ** The Redis server and the world around the process *)

(** A key of the server holds a value of one type. *)
Inductive rval :=
| RString (s : string)
| RList (l : list string)
| RHash (h : gmap string string).

(** The commands the queue sends. *)
Inductive command :=
| HSET (name key value : string)
| HGET (name key : string)
| RPUSH (name value : string)
| BLPOP (name : string) (timeout : N).

(** [store] is the key space of the server; [net] says, for the successive
    remote calls, whether the server can be reached (once the list is used up
    it always can); [clock] counts the seconds the process has spent blocked;
    [sent] is the sequence of commands issued so far; [stdout] what was
    printed; [made] the number of client objects built. *)
Record World := mkWorld {
  store : gmap string rval;
  net : list bool;
  clock : N;
  sent : list command;
  stdout : list string;
  made : nat
}.

Definition set_store (ks : gmap string rval) (w : World) : World :=
  mkWorld ks (net w) (clock w) (sent w) (stdout w) (made w).
Definition set_net (n : list bool) (w : World) : World :=
  mkWorld (store w) n (clock w) (sent w) (stdout w) (made w).
Definition set_clock (c : N) (w : World) : World :=
  mkWorld (store w) (net w) c (sent w) (stdout w) (made w).
Definition set_sent (l : list command) (w : World) : World :=
  mkWorld (store w) (net w) (clock w) l (stdout w) (made w).
Definition set_stdout (l : list string) (w : World) : World :=
  mkWorld (store w) (net w) (clock w) (sent w) l (made w).
Definition set_made (n : nat) (w : World) : World :=
  mkWorld (store w) (net w) (clock w) (sent w) (stdout w) n.

(** ** Computations: state, exceptions, and calls that never return *)

Inductive outcome (A : Type) :=
| Ret (a : A)
| Raise (e : exn)
| Hang.
Arguments Ret {A} a.
Arguments Raise {A} e.
Arguments Hang {A}.

Definition M (S A : Type) : Type := S → outcome A * S.

Definition ret {S A} (a : A) : M S A := λ s, (Ret a, s).

Definition bind {S A B} (m : M S A) (k : A → M S B) : M S B := λ s,
  match m s with
  | (Ret a, s') => k a s'
  | (Raise e, s') => (Raise e, s')
  | (Hang, s') => (Hang, s')
  end.

Definition raise {S A} (e : exn) : M S A := λ s, (Raise e, s).

Definition hang {S A} : M S A := λ s, (Hang, s).

(** [try: m  except ...: h e]; a handler re-raises what no clause matches. *)
Definition try_except {S A} (m : M S A) (h : exn → M S A) : M S A := λ s,
  match m s with
  | (Raise e, s') => h e s'
  | r => r
  end.

Definition gets {S A} (f : S → A) : M S A := λ s, (Ret (f s), s).
Definition modify {S} (f : S → S) : M S unit := λ s, (Ret tt, f s).

Declare Scope py_scope.
Delimit Scope py_scope with py.
Notation "x <- m ;; k" := (bind m (λ x, k))
  (at level 100, m at next level, right associativity) : py_scope.
Notation "m ;; k" := (bind m (λ _, k))
  (at level 100, right associativity) : py_scope.
Local Open Scope py_scope.

(** [print(line)] *)
Definition print (line : string) : M World unit :=
  modify (λ w, set_stdout (stdout w ++ [line]) w).

(** ** The client library *)

(** Whether the server answers the next remote call, and the world once
    that call has been made. *)
Definition server_up (w : World) : bool :=
  match net w with
  | false :: _ => false
  | _ => true
  end.

Definition next_call (w : World) : World := set_net (tail (net w)) w.

(** The constructor.  It records the address and builds the client object;
    no connection is opened and nothing is sent before the first command,
    so the call returns whether or not the server can be reached. *)
Definition StrictRedis_new (host : string) (port : Z) (decode_responses : bool)
  : M World StrictRedis := λ w,
  (Ret (mkStrictRedis (made w) host port decode_responses),
   set_made (S (made w)) w).

(** One command goes out: it is recorded, and it reaches the server or the
    call raises [ConnectionError] with the key space untouched. *)
Definition issued (c : command) (w : World) : World :=
  next_call (set_sent (sent w ++ [c]) w).

Definition send (c : command) : M World unit := λ w,
  (if server_up w then Ret tt else Raise ConnectionError, issued c w).

Definition WRONGTYPE : string :=
  "WRONGTYPE Operation against a key holding the wrong kind of value".

(** [HSET name key value]: creates the hash when the key is free; the reply
    is the number of fields added. *)
Definition hset (rc : StrictRedis) (name key value : string) : M World Z :=
  send (HSET name key value) ;;
  ks <- gets store ;;
  match ks !! name with
  | None =>
      modify (set_store (<[name := RHash {[key := value]}]> ks)) ;; ret 1%Z
  | Some (RHash h) =>
      modify (set_store (<[name := RHash (<[key := value]> h)]> ks)) ;;
      ret (match h !! key with Some _ => 0%Z | None => 1%Z end)
  | Some _ => raise (ResponseError WRONGTYPE)
  end.

(** [HGET name key]: [None] when the key or the field is missing. *)
Definition hget (rc : StrictRedis) (name key : string) : M World (option string) :=
  send (HGET name key) ;;
  ks <- gets store ;;
  match ks !! name with
  | None => ret None
  | Some (RHash h) => ret (h !! key)
  | Some _ => raise (ResponseError WRONGTYPE)
  end.

(** [RPUSH name value]: appends at the tail, creating the list when the key
    is free; the reply is the new length. *)
Definition rpush (rc : StrictRedis) (name value : string) : M World Z :=
  send (RPUSH name value) ;;
  ks <- gets store ;;
  match ks !! name with
  | None => modify (set_store (<[name := RList [value]]> ks)) ;; ret 1%Z
  | Some (RList l) =>
      modify (set_store (<[name := RList (l ++ [value])]> ks)) ;;
      ret (Z.of_nat (length (l ++ [value])))
  | Some _ => raise (ResponseError WRONGTYPE)
  end.

(** [BLPOP name timeout] on one key, with nobody else writing to the server
    in the meantime: the head of the list is removed and returned with the
    list name (a list that becomes empty is deleted); on a missing list the
    call blocks for [timeout] seconds and returns [None], and with
    [timeout = 0] it blocks indefinitely. *)
Definition blpop (rc : StrictRedis) (name : string) (timeout : N)
  : M World (option (string * string)) :=
  send (BLPOP name timeout) ;;
  ks <- gets store ;;
  match ks !! name with
  | Some (RList (x :: l)) =>
      modify (set_store (match l with
                         | [] => delete name ks
                         | _ => <[name := RList l]> ks
                         end)) ;;
      ret (Some (name, x))
  | Some (RList []) | None =>
      if (timeout =? 0)%N then hang
      else modify (λ w, set_clock (clock w + timeout)%N w) ;; ret None
  | Some _ => raise (ResponseError WRONGTYPE)
  end.

(** Attribute access on [self.redis_client]: on [None] it raises
    [AttributeError] before any argument of the call is evaluated. *)
Definition with_client {A} (client : option StrictRedis)
  (call : StrictRedis → M World A) : M World A :=
  match client with
  | None => raise AttributeError
  | Some rc => call rc
  end.

(** [json.loads(s)] on the reply of [hget]: [None] is a [TypeError], text
    that does not parse a [JSONDecodeError]. *)
Definition loads `{Json V} (s : option string) : M World V :=
  match s with
  | None => raise TypeError
  | Some text =>
      match json_loads text with
      | Some v => ret v
      | None => raise JSONDecodeError
      end
  end.

(** ** [RedisQueue] *)

(** [RedisQueue.__init__(self, prefix, hostname, port=6379)] *)
Definition default_port : Z := 6379.

Definition RedisQueue_init (prefix hostname : string) (port : Z) : RedisQueue :=
  mkRedisQueue hostname port None prefix.

Definition set_redis_client (c : option StrictRedis) (self : RedisQueue) : RedisQueue :=
  mkRedisQueue (hostname self) (port self) c (prefix self).

(** Runs a computation on the world next to an object under mutation. *)
Definition in_world {X A} (m : M World A) : M (X * World) A := λ s,
  let (r, w') := m (snd s) in (r, (fst s, w')).

(** The line both handlers of [ConnectionError] print. *)
Definition connection_error_line (self : RedisQueue) : string :=
  "ConnectionError while trying to connect to Redis@" +:+ hostname self
  +:+ ":" +:+ pretty (port self).

(** [RedisQueue.connect(self)]; the state is [self] and the world. *)
Definition connect : M (RedisQueue * World) unit :=
  try_except
    (self <- gets fst ;;
     match redis_client self with
     | None =>
         rc <- in_world (StrictRedis_new (hostname self) (port self) true) ;;
         modify (λ s, (set_redis_client (Some rc) (fst s), snd s))
     | Some _ => ret tt
     end)
    (λ e, match e with
          | ConnectionError =>
              self <- gets fst ;;
              in_world (print (connection_error_line self)) ;;
              raise ConnectionError
          | _ => raise e
          end).

(** [RedisQueue.is_connected] *)
Definition is_connected (self : RedisQueue) : bool :=
  match redis_client self with Some _ => true | None => false end.

(** The [except] clauses shared by [get] and [put]. *)
Definition queue_handlers {A} (self : RedisQueue) (e : exn) : M World A :=
  match e with
  | AttributeError => raise (NotConnected self)
  | ConnectionError =>
      print (connection_error_line self) ;; raise ConnectionError
  | _ => raise e
  end.

Definition default_timeout : N := 1.

Section json.
Context {V : Type} `{!Json V}.

(** [RedisQueue.get(self, kind, timeout=1)] *)
Definition get (self : RedisQueue) (kind : string) (timeout : N)
  : M World (string * V) :=
  try_except
    (x <- with_client (redis_client self)
            (λ rc, blpop rc (prefix self +:+ "_list") timeout) ;;
     match x with
     | None => raise Empty
     | Some (task_list, task_id) =>
         jtask_info <- with_client (redis_client self)
                         (λ rc, hget rc ("task_" +:+ task_id) kind) ;;
         task_info <- loads jtask_info ;;
         ret (task_id, task_info)
     end)
    (λ e, match e with
          | Empty => raise Empty
          | _ => queue_handlers self e
          end).

(** [RedisQueue.put(self, task_id, kind, payload)] *)
Definition put (self : RedisQueue) (task_id kind : string) (payload : V)
  : M World unit :=
  try_except
    (with_client (redis_client self)
       (λ rc, hset rc ("task_" +:+ task_id) kind (json_dumps payload)) ;;
     with_client (redis_client self)
       (λ rc, rpush rc (prefix self +:+ "_list") task_id) ;;
     ret tt)
    (queue_handlers self).

End json.

(** ** [EndpointQueue] *)

(** [EndpointQueue.__init__(self, endpoint, hostname, port=6379)] *)
Definition EndpointQueue_init (endpoint hostname : string) (port : Z)
  : EndpointQueue :=
  let super := RedisQueue_init ("task_" +:+ endpoint) hostname port in
  mkEndpointQueue super (prefix super +:+ "_list") endpoint.

Definition set_task_endpoint (e : option string) (task : Task) : Task :=
  mkTask (task_id task) (status task) e.
Definition set_status (s : TaskState) (task : Task) : Task :=
  mkTask (task_id task) s (task_endpoint task).

(** [EndpointQueue.enqueue(self, task)]; the state is the task object and
    the world, the two assignments come before the push. *)
Definition enqueue (self : EndpointQueue) : M (Task * World) unit :=
  modify (λ s, (set_task_endpoint (Some (endpoint self)) (fst s), snd s)) ;;
  modify (λ s, (set_status WAITING_FOR_EP (fst s), snd s)) ;;
  task <- gets fst ;;
  in_world (with_client (redis_client (super self))
              (λ rc, rpush rc (queue_name self) (task_id task))) ;;
  ret tt.

Section collaborator.
(** Modelled from the spec: the lookup [Task.from_id(connection, task_id) -> Task]
    of [funcx_web_service.models.tasks], which is not among the sources; it
    receives [self.redis_client] and the popped id and returns the task. *)
Variable Task_from_id : option StrictRedis → string → Task.

(** [EndpointQueue.dequeue(self, timeout=1)] *)
Definition dequeue (self : EndpointQueue) (timeout : N) : M World Task :=
  res <- with_client (redis_client (super self))
           (λ rc, blpop rc (queue_name self) timeout) ;;
  match res with
  | None => raise Empty
  | Some (_, task_id) => ret (Task_from_id (redis_client (super self)) task_id)
  end.

End collaborator.

(** ** Concrete data to run the model on *)

(** The white space [json.loads] skips around a value: space, tab, line
    feed and carriage return. *)
Definition is_json_space (a : Ascii.ascii) : bool :=
  let n := Ascii.nat_of_ascii a in
  Nat.eqb n 32 || Nat.eqb n 9 || Nat.eqb n 10 || Nat.eqb n 13.

Fixpoint skip_space (s : string) : string :=
  match s with
  | String a rest => if is_json_space a then skip_space rest else s
  | EmptyString => s
  end.

Definition strip_space (s : string) : string :=
  String.rev (skip_space (String.rev (skip_space s))).

(** The payloads that are JSON literals, printed the way [json.dumps] does
    and read the way [json.loads] does, white space around the literal
    included; the text of any other value has no reading at this type. *)
Inductive jlit := JNull | JTrue | JFalse.

#[global] Instance json_literals : Json jlit := {|
  json_dumps v :=
    match v with JNull => "null" | JTrue => "true" | JFalse => "false" end;
  json_loads s :=
    let text := strip_space s in
    if decide (text = "null") then Some JNull
    else if decide (text = "true") then Some JTrue
    else if decide (text = "false") then Some JFalse
    else None
|}.

(** A lookup that fills in the id and leaves the task freshly created. *)
Definition created_task (rc : option StrictRedis) (id : string) : Task :=
  mkTask id CREATED None.

Definition world0 : World := mkWorld ∅ [] 0 [] [] 0.

Definition client0 : StrictRedis := mkStrictRedis 0 "127.0.0.1" default_port true.

(** A queue with prefix [task] on which [connect] has succeeded. *)
Definition rq0 : RedisQueue :=
  mkRedisQueue "127.0.0.1" default_port (Some client0) "task".

(** The queue of an endpoint, holding the client [client0]. *)
Definition connected_endpoint (e : string) : EndpointQueue :=
  let q := EndpointQueue_init e "127.0.0.1" default_port in
  mkEndpointQueue (set_redis_client (Some client0) (super q))
                  (queue_name q) (endpoint q).

Definition eq0 : EndpointQueue := connected_endpoint "ep-a".

(** The server is reached by the first remote call and lost at the second. *)
Definition world_drop : World := mkWorld ∅ [true; false] 0 [] [] 0.

(** An older task waits in the list of [rq0], its result already stored. *)
Definition world_busy : World :=
  mkWorld (<["task_list" := RList ["old"]]>
             (<["task_old" := RHash {["result" := "false"]}]> ∅))
          [] 0 [] [] 0.

(** ** Reading the key space *)

(** The list and the hash stored under a key (empty when the key is free or
    holds something else), and one field of a hash. *)
Definition list_at (ks : gmap string rval) (name : string) : list string :=
  match ks !! name with Some (RList l) => l | _ => [] end.

Definition hash_at (ks : gmap string rval) (name : string) : gmap string string :=
  match ks !! name with Some (RHash h) => h | _ => ∅ end.

Definition hfield (ks : gmap string rval) (name key : string) : option string :=
  hash_at ks name !! key.

(** No element is waiting under the key. *)
Definition empty_list (ks : gmap string rval) (name : string) : Prop :=
  ks !! name = None ∨ ks !! name = Some (RList []).

(** The server answers the next [n] remote calls. *)
Definition reachable (n : nat) (w : World) : Prop := false ∉ take n (net w).

(** Two calls of [connect] in a row. *)
Definition connect_twice : M (RedisQueue * World) unit := connect ;; connect.

(** The key space once field [kind] of the hash under [hk] holds [value]. *)
Definition written (ks : gmap string rval) (hk kind value : string)
  : gmap string rval :=
  <[hk := RHash (<[kind := value]> (hash_at ks hk))]> ks.

(** How far a call of [put] got. *)
Inductive put_stage := NoClient | WriteFailed | PushFailed | Stored.

(** ** Text forms *)

(** [RedisQueue.__repr__], which [__str__] returns as it is. *)
Definition RedisQueue_repr (self : RedisQueue) : string :=
  "<RedisQueue at " +:+ hostname self +:+ ":" +:+ pretty (port self)
  +:+ "#" +:+ prefix self.

Definition RedisQueue_str (self : RedisQueue) : string := RedisQueue_repr self.

(** [NotConnected.__repr__]: [format] renders the queue with its [__str__]. *)
Definition NotConnected_repr (queue : RedisQueue) : string :=
  "Queue " +:+ RedisQueue_str queue
  +:+ " is not connected. Cannot execute queue operations".

(** ** Inherited methods and runs of several calls *)

(** [connect] called on an [EndpointQueue]: the inherited method works on
    the attributes of the base class and leaves the other two alone. *)
Definition connect_endpoint : M (EndpointQueue * World) unit := λ s,
  let (r, s') := connect (super (fst s), snd s) in
  (r, (mkEndpointQueue (fst s') (queue_name (fst s)) (endpoint (fst s)), snd s')).

(** What [EndpointQueue.__init__] establishes between the attributes; no
    method assigns them afterwards. *)
Definition well_named (q : EndpointQueue) : Prop :=
  prefix (super q) = "task_" +:+ endpoint q
  ∧ queue_name q = prefix (super q) +:+ "_list".

(** [enqueue] on each task of a list in turn, stopping at the first call
    that does not return; the tasks come back as the calls left them. *)
Fixpoint enqueue_all (self : EndpointQueue) (tasks : list Task)
  : M World (list Task) := λ w,
  match tasks with
  | [] => (Ret [], w)
  | task :: rest =>
      match enqueue self (task, w) with
      | (Ret _, (task', w')) =>
          match enqueue_all self rest w' with
          | (Ret rest', w'') => (Ret (task' :: rest'), w'')
          | r => r
          end
      | (Raise e, (_, w')) => (Raise e, w')
      | (Hang, (_, w')) => (Hang, w')
      end
  end.

(** [n] calls of [dequeue] in a row, collecting the tasks. *)
Fixpoint dequeue_n (Task_from_id : option StrictRedis → string → Task)
    (self : EndpointQueue) (timeout : N) (n : nat) : M World (list Task) :=
  match n with
  | 0 => ret []
  | S n' =>
      task <- dequeue Task_from_id self timeout ;;
      rest <- dequeue_n Task_from_id self timeout n' ;;
      ret (task :: rest)
  end.

(** The key space after the head of the list under [name] is taken and
    [l] is what remains of it. *)
Definition popped (ks : gmap string rval) (name : string) (l : list string)
  : gmap string rval :=
  match l with
  | [] => delete name ks
  | _ => <[name := RList l]> ks
  end.

(** * Properties *)

Create HintDb py discriminated.
#[local] Hint Unfold ret bind raise hang try_except gets modify in_world
  with_client send print queue_handlers : py.

(** Unfolds the monad, then splits on whatever the run branches on. *)
Ltac run := autounfold with py in *; simpl in *.
Ltac split_run := run; repeat (case_match; simplify_eq/=); try done.

(** ** The Redis commands *)

Lemma server_up_reachable n w : reachable (S n) w → server_up w = true.
Proof.
  unfold reachable, server_up. destruct (net w) as [|[] rest]; simpl; auto.
  intros H. exfalso. apply H. left.
Qed.

Lemma reachable_issued n c w : reachable (S n) w → reachable n (issued c w).
Proof.
  unfold reachable. simpl. destruct (net w) as [|b rest]; simpl.
  - by rewrite take_nil.
  - intros H Hin. apply H. by right.
Qed.

(** [hset], [rpush], [hget] and [blpop] as one case analysis each. *)
Lemma hset_run rc name key value w :
  hset rc name key value w =
  let w1 := issued (HSET name key value) w in
  if server_up w then
    match store w !! name with
    | None => (Ret 1%Z, set_store (<[name := RHash {[key := value]}]> (store w)) w1)
    | Some (RHash h) =>
        (Ret (match h !! key with Some _ => 0%Z | None => 1%Z end),
         set_store (<[name := RHash (<[key := value]> h)]> (store w)) w1)
    | Some _ => (Raise (ResponseError WRONGTYPE), w1)
    end
  else (Raise ConnectionError, w1).
Proof. unfold hset. split_run. Qed.

Lemma rpush_run rc name value w :
  rpush rc name value w =
  let w1 := issued (RPUSH name value) w in
  if server_up w then
    match store w !! name with
    | None => (Ret 1%Z, set_store (<[name := RList [value]]> (store w)) w1)
    | Some (RList l) =>
        (Ret (Z.of_nat (length (l ++ [value]))),
         set_store (<[name := RList (l ++ [value])]> (store w)) w1)
    | Some _ => (Raise (ResponseError WRONGTYPE), w1)
    end
  else (Raise ConnectionError, w1).
Proof. unfold rpush. split_run. Qed.

Lemma hget_run rc name key w :
  hget rc name key w =
  let w1 := issued (HGET name key) w in
  if server_up w then
    match store w !! name with
    | None => (Ret None, w1)
    | Some (RHash h) => (Ret (h !! key), w1)
    | Some _ => (Raise (ResponseError WRONGTYPE), w1)
    end
  else (Raise ConnectionError, w1).
Proof. unfold hget. split_run. Qed.

Lemma blpop_run rc name timeout w :
  blpop rc name timeout w =
  let w1 := issued (BLPOP name timeout) w in
  if server_up w then
    match store w !! name with
    | Some (RList (x :: l)) =>
        (Ret (Some (name, x)),
         set_store (match l with
                    | [] => delete name (store w)
                    | _ => <[name := RList l]> (store w)
                    end) w1)
    | Some (RList []) | None =>
        if (timeout =? 0)%N then (Hang, w1)
        else (Ret None, set_clock (clock w + timeout)%N w1)
    | Some _ => (Raise (ResponseError WRONGTYPE), w1)
    end
  else (Raise ConnectionError, w1).
Proof. unfold blpop. split_run. Qed.

#[global] Arguments hset : simpl never.
#[global] Arguments rpush : simpl never.
#[global] Arguments hget : simpl never.
#[global] Arguments blpop : simpl never.

(** ** The connection *)

Lemma init_not_connected prefix hostname port :
  is_connected (RedisQueue_init prefix hostname port) = false.
Proof. done. Qed.

Lemma endpoint_init_not_connected endpoint hostname port :
  is_connected (super (EndpointQueue_init endpoint hostname port)) = false.
Proof. done. Qed.

(** What one call of [connect] does, by the handle. *)
Lemma connect_run self w :
  connect (self, w) =
  match redis_client self with
  | Some _ => (Ret tt, (self, w))
  | None =>
      (Ret tt,
       (set_redis_client
          (Some (mkStrictRedis (made w) (hostname self) (port self) true))
          self,
        set_made (S (made w)) w))
  end.
Proof.
  unfold connect, StrictRedis_new. run. by destruct (redis_client self).
Qed.

(** C6. [connect] is idempotent.  A call returns and leaves the queue with
    a handle: on a queue that holds one already, queue, handle and world are
    as they were; on a queue without one, a client for the queue's host and
    port is built.  A second call changes nothing, so two calls in a row do
    what one call does, and between them they build exactly one client on
    an unconnected queue and none on a connected one. *)
Theorem connect_idempotent (self : RedisQueue) (w : World) :
  let s1 := connect (self, w) in
  let s2 := connect_twice (self, w) in
  s2 = s1
  ∧ fst s1 = Ret tt
  ∧ is_connected (fst (snd s1)) = true
  ∧ connect (snd s1) = (Ret tt, snd s1)
  ∧ match redis_client self with
    | Some rc => s1 = (Ret tt, (self, w))
    | None =>
        redis_client (fst (snd s1))
        = Some (mkStrictRedis (made w) (hostname self) (port self) true)
    end
  ∧ made (snd (snd s2)) = made w + (if is_connected self then 0 else 1).
Proof.
  simpl. unfold connect_twice, bind. rewrite connect_run. unfold is_connected.
  destruct (redis_client self) as [rc|] eqn:E; simpl.
  - rewrite connect_run, E. split_and!; try done; lia.
  - rewrite connect_run. simpl. split_and!; try done; lia.
Qed.

Lemma connect_idempotent_witness :
  let q := RedisQueue_init "task" "127.0.0.1" default_port in
  made (snd (snd (connect_twice (q, world0)))) = 1
  ∧ is_connected (fst (snd (connect (q, world0)))) = true
  ∧ connect_twice (q, world0) = connect (q, world0).
Proof.
  intros q.
  destruct (connect_idempotent q world0) as (H1 & _ & H3 & _ & _ & H6).
  split_and!; [exact H6 | exact H3 | exact H1].
Defined.

(** C4. On a queue without a connection handle, [get] and [put] raise
    [NotConnected] carrying that queue, whatever the world is, and leave the
    world as it was. *)
Theorem get_put_not_connected `{Json V} (self : RedisQueue)
    (tid kind : string) (payload : V) (timeout : N) (w : World) :
  is_connected self = false →
  get self kind timeout w = (Raise (NotConnected self), w)
  ∧ put self tid kind payload w = (Raise (NotConnected self), w).
Proof.
  unfold is_connected, get, put. intros Hc.
  destruct (redis_client self); [done|]. by run.
Qed.

Lemma get_put_not_connected_witness :
  get (RedisQueue_init "task" "127.0.0.1" default_port) "result" 1 world0
    = (Raise (NotConnected (RedisQueue_init "task" "127.0.0.1" default_port)),
       world0)
  ∧ put (RedisQueue_init "task" "127.0.0.1" default_port) "01" "result" JTrue
      world0
    = (Raise (NotConnected (RedisQueue_init "task" "127.0.0.1" default_port)),
       world0).
Proof. apply get_put_not_connected. reflexivity. Defined.

(** C9. On an endpoint queue without a connection handle, [enqueue] and
    [dequeue] raise [AttributeError], not [NotConnected]; [enqueue] has by
    then assigned the task's endpoint and status. *)
Theorem enqueue_dequeue_not_connected
    (Task_from_id : option StrictRedis → string → Task)
    (self : EndpointQueue) (task : Task) (timeout : N) (w : World) :
  is_connected (super self) = false →
  enqueue self (task, w)
    = (Raise AttributeError,
       (mkTask (task_id task) WAITING_FOR_EP (Some (endpoint self)), w))
  ∧ dequeue Task_from_id self timeout w = (Raise AttributeError, w).
Proof.
  unfold is_connected, enqueue, dequeue. intros Hc.
  destruct (redis_client (super self)); [done|]. by run.
Qed.

Lemma enqueue_dequeue_not_connected_witness :
  enqueue (EndpointQueue_init "ep-a" "127.0.0.1" default_port)
      (mkTask "t1" CREATED None, world0)
    = (Raise AttributeError, (mkTask "t1" WAITING_FOR_EP (Some "ep-a"), world0))
  ∧ dequeue created_task (EndpointQueue_init "ep-a" "127.0.0.1" default_port)
      1 world0
    = (Raise AttributeError, world0).
Proof. apply enqueue_dequeue_not_connected. reflexivity. Defined.

(** ** [put] *)

Section put_facts.
Context {V : Type} `{!Json V}.
Implicit Types (self : RedisQueue) (tid kind : string) (payload : V) (w : World).
#[local] Arguments queue_handlers : simpl never.

(** [put] on a connected queue is the two calls in sequence, under the
    handlers. *)
Lemma put_run self rc tid kind payload w :
  redis_client self = Some rc →
  put self tid kind payload w =
  match hset rc ("task_" +:+ tid) kind (json_dumps payload) w with
  | (Ret _, w1) =>
      match rpush rc (prefix self +:+ "_list") tid w1 with
      | (Ret _, w2) => (Ret tt, w2)
      | (Raise e, w2) => queue_handlers self e w2
      | (Hang, w2) => (Hang, w2)
      end
  | (Raise e, w1) => queue_handlers self e w1
  | (Hang, w1) => (Hang, w1)
  end.
Proof.
  intros Hrc. unfold put. rewrite Hrc. unfold try_except, bind, with_client, ret.
  destruct (hset _ _ _ _ _) as [[n|e|] w1]; [|done|done].
  by destruct (rpush _ _ _ _) as [[m|e|] w2].
Qed.

(** What the handlers leave of a store error: the same exception, the key
    space and the command log untouched. *)
Lemma queue_handlers_store_error {A} self e w :
  e = ConnectionError ∨ e = ResponseError WRONGTYPE →
  fst (queue_handlers (A:=A) self e w) = Raise e
  ∧ store (snd (queue_handlers (A:=A) self e w)) = store w
  ∧ sent (snd (queue_handlers (A:=A) self e w)) = sent w.
Proof. by intros [-> | ->]. Qed.

Lemma list_at_written ks hk kind value lk :
  hk ≠ lk → list_at (written ks hk kind value) lk = list_at ks lk.
Proof. intros. unfold list_at, written. by rewrite lookup_insert_ne. Qed.

Lemma hfield_written ks hk kind value :
  hfield (written ks hk kind value) hk kind = Some value.
Proof.
  unfold hfield, hash_at, written. by rewrite lookup_insert_eq, lookup_insert_eq.
Qed.

Lemma hfield_written_ne ks hk kind value kind' :
  kind' ≠ kind →
  hfield (written ks hk kind value) hk kind' = hfield ks hk kind'.
Proof.
  intros. unfold hfield, hash_at at 1, written.
  by rewrite lookup_insert_eq, lookup_insert_ne.
Qed.

Lemma hfield_insert_ne ks name hk kind v :
  name ≠ hk → hfield (<[name := v]> ks) hk kind = hfield ks hk kind.
Proof. intros. unfold hfield, hash_at. by rewrite lookup_insert_ne. Qed.

(** [hset] either writes the field and returns, or raises a store error
    with the key space as it was. *)
Lemma hset_cases rc hk kind value w :
  (∃ n, hset rc hk kind value w
        = (Ret n, set_store (written (store w) hk kind value)
                    (issued (HSET hk kind value) w))
        ∧ list_at (store w) hk = [])
  ∨ (∃ e, (e = ConnectionError ∨ e = ResponseError WRONGTYPE)
          ∧ hset rc hk kind value w = (Raise e, issued (HSET hk kind value) w)).
Proof.
  rewrite hset_run. unfold written, hash_at, list_at. simpl.
  destruct (server_up w); [|right; eauto].
  destruct (store w !! hk) as [[s|l|h]|]; [right|right|left|left]; eauto.
Qed.

(** [rpush] either appends and returns, or raises a store error with the
    key space as it was; it only returns on a key that holds no hash. *)
Lemma rpush_cases rc lk value w :
  (∃ n, rpush rc lk value w
        = (Ret n, set_store (<[lk := RList (list_at (store w) lk ++ [value])]>
                               (store w))
                    (issued (RPUSH lk value) w))
        ∧ hash_at (store w) lk = ∅)
  ∨ (∃ e, (e = ConnectionError ∨ e = ResponseError WRONGTYPE)
          ∧ rpush rc lk value w = (Raise e, issued (RPUSH lk value) w)).
Proof.
  rewrite rpush_run. unfold hash_at, list_at. simpl.
  destruct (server_up w); [|right; eauto].
  destruct (store w !! lk) as [[s|l|h]|]; [right|left|right|left]; eauto.
Qed.

(** The outcome of [put] by the stage it reached: [r] is the outcome and
    [w'] the world it leaves. *)
Lemma put_cases self tid kind payload w :
  let hk := "task_" +:+ tid in
  let lk := prefix self +:+ "_list" in
  let value := json_dumps payload in
  let hs := HSET hk kind value in
  let rp := RPUSH lk tid in
  let r := fst (put self tid kind payload w) in
  let w' := snd (put self tid kind payload w) in
  let wrote :=
    ∃ rc n, redis_client self = Some rc
      ∧ hset rc hk kind value w
        = (Ret n, set_store (written (store w) hk kind value) (issued hs w))
      ∧ list_at (store w) hk = [] in
  ∃ stage,
    match stage with
    | NoClient =>
        redis_client self = None ∧ r = Raise (NotConnected self) ∧ w' = w
    | WriteFailed =>
        (r = Raise ConnectionError ∨ r = Raise (ResponseError WRONGTYPE))
        ∧ store w' = store w ∧ sent w' = sent w ++ [hs]
    | PushFailed =>
        (r = Raise ConnectionError ∨ r = Raise (ResponseError WRONGTYPE))
        ∧ store w' = written (store w) hk kind value
        ∧ sent w' = sent w ++ [hs; rp]
        ∧ wrote
    | Stored =>
        r = Ret tt
        ∧ hk ≠ lk
        ∧ store w' = <[lk := RList (list_at (store w) lk ++ [tid])]>
                       (written (store w) hk kind value)
        ∧ sent w' = sent w ++ [hs; rp]
        ∧ wrote
    end.
Proof.
  intros hk lk value hs rp r w' wrote. subst r w' wrote.
  destruct (redis_client self) as [rc|] eqn:Hrc; cycle 1.
  { exists NoClient. unfold put. rewrite Hrc. by run. }
  rewrite (put_run _ rc) by done. fold hk lk value.
  destruct (hset_cases rc hk kind value w)
    as [(n & Hset & Hl) | (e & He & Hset)]; rewrite Hset; cycle 1.
  { exists WriteFailed.
    destruct He as [-> | ->]; unfold queue_handlers; simpl; auto. }
  match goal with
  | |- context [rpush rc lk tid ?w1] =>
      destruct (rpush_cases rc lk tid w1)
        as [(m & Hpush & Hh) | (e & He & Hpush)]; rewrite Hpush
  end; simpl in *.
  - exists Stored.
    assert (hk ≠ lk) as Hne.
    { intros Heq. revert Hh. unfold hash_at, written.
      rewrite <- Heq, lookup_insert_eq. apply insert_non_empty. }
    rewrite list_at_written by done.
    split_and!; rewrite <- ?(assoc_L (++)); eauto.
  - exists PushFailed.
    destruct He as [-> | ->]; unfold queue_handlers; simpl;
      split_and!; rewrite <- ?(assoc_L (++)); eauto.
Qed.

End put_facts.

Section put_properties.
Context {V : Type} `{!Json V}.
Implicit Types (self : RedisQueue) (tid kind : string) (payload : V) (w : World).

(** [put] never changes a field other than [kind] of the task's record,
    whatever its outcome. *)
Lemma put_frame self tid kind payload w kind' :
  kind' ≠ kind →
  hfield (store (snd (put self tid kind payload w))) ("task_" +:+ tid) kind'
  = hfield (store w) ("task_" +:+ tid) kind'.
Proof.
  intros Hk. destruct (put_cases self tid kind payload w) as [[] Hst];
    simpl in Hst.
  - destruct Hst as (_ & _ & ->). done.
  - destruct Hst as (_ & -> & _). done.
  - destruct Hst as (_ & -> & _). by apply hfield_written_ne.
  - destruct Hst as (_ & Hne & -> & _).
    rewrite hfield_insert_ne by done. by apply hfield_written_ne.
Qed.

(** A [put] that returns has written the field. *)
Lemma put_ret_field self tid kind payload w w' :
  put self tid kind payload w = (Ret tt, w') →
  hfield (store w') ("task_" +:+ tid) kind = Some (json_dumps payload).
Proof.
  intros Hput. destruct (put_cases self tid kind payload w) as [[] Hst];
    rewrite Hput in Hst; simpl in Hst.
  - by destruct Hst as (_ & ? & _).
  - by destruct Hst as ([?|?] & _).
  - by destruct Hst as ([?|?] & _).
  - destruct Hst as (_ & Hne & -> & _).
    rewrite hfield_insert_ne by done. apply hfield_written.
Qed.

(** C3. The key layout: a [put] that returns has sent [HSET] on
    [task_<task_id>] with field [kind] and the JSON text, then [RPUSH] of the
    id on [<prefix>_list], and the key space holds exactly these two
    updates; an [EndpointQueue] built for [endpoint] has prefix
    [task_<endpoint>] and list key [task_<endpoint>_list]. *)
Theorem store_key_layout self tid kind payload w w'
    (endpoint hostname : string) (port : Z) :
  put self tid kind payload w = (Ret tt, w') →
  sent w' = sent w ++ [HSET ("task_" +:+ tid) kind (json_dumps payload);
                       RPUSH (prefix self +:+ "_list") tid]
  ∧ store w'
    = <[prefix self +:+ "_list" :=
          RList (list_at (store w) (prefix self +:+ "_list") ++ [tid])]>
        (<["task_" +:+ tid :=
             RHash (<[kind := json_dumps payload]>
                      (hash_at (store w) ("task_" +:+ tid)))]> (store w))
  ∧ prefix (super (EndpointQueue_init endpoint hostname port))
    = "task_" +:+ endpoint
  ∧ queue_name (EndpointQueue_init endpoint hostname port)
    = "task_" +:+ endpoint +:+ "_list".
Proof.
  intros Hput. destruct (put_cases self tid kind payload w) as [[] Hst];
    rewrite Hput in Hst; simpl in Hst.
  - by destruct Hst as (_ & ? & _).
  - by destruct Hst as ([?|?] & _).
  - by destruct Hst as ([?|?] & _).
  - destruct Hst as (_ & _ & -> & -> & _). done.
Qed.

(** C7. The commands a call of [put] adds to the log are a prefix of
    [HSET; RPUSH]: the push is never sent first or alone.  When the push
    was sent, the write had returned from the server with the field in
    place, and the field is still there after the call. *)
Theorem put_writes_before_push self tid kind payload w :
  let hk := "task_" +:+ tid in
  let value := json_dumps payload in
  let hs := HSET hk kind value in
  let rp := RPUSH (prefix self +:+ "_list") tid in
  let w' := snd (put self tid kind payload w) in
  ∃ cmds, sent w' = sent w ++ cmds
    ∧ (cmds = [] ∨ cmds = [hs]
       ∨ (cmds = [hs; rp]
          ∧ (∃ rc n w1, redis_client self = Some rc
               ∧ hset rc hk kind value w = (Ret n, w1)
               ∧ sent w1 = sent w ++ [hs]
               ∧ hfield (store w1) hk kind = Some value)
          ∧ hfield (store w') hk kind = Some value)).
Proof.
  intros hk value hs rp w'. subst w'.
  destruct (put_cases self tid kind payload w) as [[] Hst]; simpl in Hst.
  - destruct Hst as (_ & _ & ->). exists []. by rewrite app_nil_r; auto.
  - destruct Hst as (_ & _ & ->). exists [hs]. auto.
  - destruct Hst as (_ & Hs & -> & rc & n & Hrc & Hset & _).
    exists [hs; rp]. split; [done|]. right; right. split_and!; [done| |].
    + exists rc, n. eexists. split_and!; [done|apply Hset|done|].
      apply hfield_written.
    + rewrite Hs. apply hfield_written.
  - destruct Hst as (_ & Hne & Hs & -> & rc & n & Hrc & Hset & _).
    exists [hs; rp]. split; [done|]. right; right. split_and!; [done| |].
    + exists rc, n. eexists. split_and!; [done|apply Hset|done|].
      apply hfield_written.
    + rewrite Hs, hfield_insert_ne by done. apply hfield_written.
Qed.

(** C8. [put] with [kind] leaves every other field of the task's record as
    it was, whatever its outcome; when it returns the field [kind] holds the
    new JSON text; and after a second [put] for the same task with another
    kind, by any queue, both fields hold what was put. *)
Theorem put_overwrites_only_its_field self tid kind payload w kind' :
  kind' ≠ kind →
  let hk := "task_" +:+ tid in
  let r := put self tid kind payload w in
  hfield (store (snd r)) hk kind' = hfield (store w) hk kind'
  ∧ (fst r = Ret tt → hfield (store (snd r)) hk kind = Some (json_dumps payload))
  ∧ (∀ self2 payload2 w2,
       fst r = Ret tt →
       put self2 tid kind' payload2 (snd r) = (Ret tt, w2) →
       hfield (store w2) hk kind = Some (json_dumps payload)
       ∧ hfield (store w2) hk kind' = Some (json_dumps payload2)).
Proof.
  intros Hk hk r. subst hk r.
  destruct (put self tid kind payload w) as [o w1] eqn:Hput. simpl.
  split_and!.
  - pose proof (put_frame self tid kind payload w kind' Hk) as Hf.
    by rewrite Hput in Hf.
  - intros ->. by eapply put_ret_field.
  - intros self2 payload2 w2 -> Hput2. split.
    + pose proof (put_frame self2 tid kind' payload2 w1 kind) as Hf.
      rewrite Hput2 in Hf. simpl in Hf. rewrite Hf by done.
      by eapply put_ret_field.
    + by eapply put_ret_field.
Qed.

End put_properties.

(** ** [enqueue] *)

(** The task as [enqueue] leaves it. *)
Lemma enqueue_run self task w :
  enqueue self (task, w) =
  let task' := mkTask (task_id task) WAITING_FOR_EP (Some (endpoint self)) in
  match redis_client (super self) with
  | None => (Raise AttributeError, (task', w))
  | Some rc =>
      match rpush rc (queue_name self) (task_id task) w with
      | (Ret _, w') => (Ret tt, (task', w'))
      | (Raise e, w') => (Raise e, (task', w'))
      | (Hang, w') => (Hang, (task', w'))
      end
  end.
Proof.
  unfold enqueue. run. destruct (redis_client (super self)); [|done].
  simpl. by destruct (rpush _ _ _ _) as [[n|e|] w'].
Qed.

(** C2. An [enqueue] that returns has set the task's endpoint to the
    queue's and its status to WAITING_FOR_EP, and the list under
    [queue_name] is the former list with the task id added at the tail; the
    other keys are as they were. *)
Theorem enqueue_sets_fields_and_appends (self : EndpointQueue) (task task' : Task)
    (w w' : World) :
  enqueue self (task, w) = (Ret tt, (task', w')) →
  task_endpoint task' = Some (endpoint self)
  ∧ status task' = WAITING_FOR_EP
  ∧ task_id task' = task_id task
  ∧ store w' !! queue_name self
    = Some (RList (list_at (store w) (queue_name self) ++ [task_id task]))
  ∧ (∀ name, name ≠ queue_name self → store w' !! name = store w !! name).
Proof.
  rewrite enqueue_run. simpl.
  destruct (redis_client (super self)) as [rc|]; [|done].
  destruct (rpush_cases rc (queue_name self) (task_id task) w)
    as [(n & -> & _) | (e & _ & ->)]; [|done].
  intros [= <- <-]. simpl. split_and!; try done.
  - by rewrite lookup_insert_eq.
  - intros name Hne. by rewrite lookup_insert_ne.
Qed.

Lemma enqueue_sets_fields_and_appends_witness :
  let s := snd (enqueue eq0 (mkTask "t1" CREATED None, world0)) in
  task_endpoint (fst s) = Some "ep-a"
  ∧ status (fst s) = WAITING_FOR_EP
  ∧ task_id (fst s) = "t1"
  ∧ store (snd s) !! "task_ep-a_list" = Some (RList ([] ++ ["t1"]))
  ∧ (∀ name, name ≠ "task_ep-a_list" → store (snd s) !! name = store world0 !! name).
Proof.
  intros s.
  pose proof (enqueue_sets_fields_and_appends eq0 (mkTask "t1" CREATED None)
                (fst s) world0 (snd s)) as W.
  vm_compute in W |- *. apply W. reflexivity.
Defined.

(** C10. Neither [put] nor [enqueue] undoes what it did before a push that
    fails.  When [put] raises after sending the push, the field written by
    the [HSET] before it is in the key space and the list is as it was; when
    [enqueue] raises, the task keeps the endpoint and status it was given
    and the list is as it was. *)
Theorem failed_push_keeps_earlier_effects `{Json V}
    (self : RedisQueue) (tid kind : string) (payload : V) (w : World) (e : exn)
    (eself : EndpointQueue) (task : Task) (w0 : World) (e0 : exn) :
  let hk := "task_" +:+ tid in
  let lk := prefix self +:+ "_list" in
  let r := put self tid kind payload w in
  let r0 := enqueue eself (task, w0) in
  fst r = Raise e →
  sent (snd r) = sent w ++ [HSET hk kind (json_dumps payload); RPUSH lk tid] →
  fst r0 = Raise e0 →
  hfield (store (snd r)) hk kind = Some (json_dumps payload)
  ∧ list_at (store (snd r)) lk = list_at (store w) lk
  ∧ fst (snd r0)
    = mkTask (task_id task) WAITING_FOR_EP (Some (endpoint eself))
  ∧ list_at (store (snd (snd r0))) (queue_name eself)
    = list_at (store w0) (queue_name eself).
Proof.
  intros hk lk r r0 Hr Hsent Hr0. subst r r0. split_and!.
  - destruct (put_cases self tid kind payload w) as [[] Hst]; simpl in Hst.
    + destruct Hst as (_ & _ & Hw). rewrite Hw in Hsent.
      rewrite <- (app_nil_r (sent w)) in Hsent at 1.
      by apply app_inv_head in Hsent.
    + destruct Hst as (_ & _ & Hs). rewrite Hs in Hsent.
      by apply app_inv_head in Hsent.
    + destruct Hst as (_ & -> & _). apply hfield_written.
    + destruct Hst as (Hret & _). by rewrite Hret in Hr.
  - destruct (put_cases self tid kind payload w) as [[] Hst]; simpl in Hst.
    + destruct Hst as (_ & _ & ->). done.
    + destruct Hst as (_ & -> & _). done.
    + destruct Hst as (_ & -> & _ & _ & _ & _ & _ & Hl).
      fold hk in Hl |- *. destruct (decide (hk = lk)) as [<-|Hne].
      * rewrite Hl. unfold list_at, written. by rewrite lookup_insert_eq.
      * by apply list_at_written.
    + destruct Hst as (Hret & _). by rewrite Hret in Hr.
  - rewrite enqueue_run. simpl.
    destruct (redis_client (super eself)) as [rc|]; [|done].
    by destruct (rpush _ _ _ _) as [[n|e1|] w1].
  - rewrite enqueue_run in Hr0 |- *. simpl in *.
    destruct (redis_client (super eself)) as [rc|]; [|done].
    destruct (rpush_cases rc (queue_name eself) (task_id task) w0)
      as [(n & Hp & _) | (e1 & _ & Hp)]; rewrite Hp in Hr0 |- *; done.
Qed.

Lemma failed_push_keeps_earlier_effects_witness :
  hfield (store (snd (put rq0 "01" "result" JTrue world_drop))) "task_01" "result"
    = Some "true"
  ∧ list_at (store (snd (put rq0 "01" "result" JTrue world_drop))) "task_list"
    = list_at (store world_drop) "task_list"
  ∧ fst (snd (enqueue eq0 (mkTask "t1" CREATED None, next_call world_drop)))
    = mkTask "t1" WAITING_FOR_EP (Some "ep-a")
  ∧ list_at (store (snd (snd (enqueue eq0 (mkTask "t1" CREATED None,
                                            next_call world_drop)))))
      "task_ep-a_list"
    = list_at (store (next_call world_drop)) "task_ep-a_list".
Proof.
  pose proof (failed_push_keeps_earlier_effects rq0 "01" "result" JTrue
                world_drop ConnectionError eq0 (mkTask "t1" CREATED None)
                (next_call world_drop) ConnectionError) as W.
  vm_compute in W |- *. apply W; reflexivity.
Defined.

(** ** [get] and [dequeue] *)

Section get_properties.
Context {V : Type} `{!Json V}.
Variable Task_from_id : option StrictRedis → string → Task.
Implicit Types (self : RedisQueue) (tid kind : string) (payload : V) (w : World).

(** The [except] clauses of [get]. *)
Lemma get_run self rc kind timeout w :
  redis_client self = Some rc →
  get self kind timeout w =
  let handlers e :=
    match e with Empty => raise Empty | _ => queue_handlers self e end in
  match blpop rc (prefix self +:+ "_list") timeout w with
  | (Ret None, w1) => (Raise Empty, w1)
  | (Ret (Some (_, task_id)), w1) =>
      match hget rc ("task_" +:+ task_id) kind w1 with
      | (Ret None, w2) => (Raise TypeError, w2)
      | (Ret (Some text), w2) =>
          match json_loads text with
          | Some v => (Ret (task_id, v), w2)
          | None => (Raise JSONDecodeError, w2)
          end
      | (Raise e, w2) => handlers e w2
      | (Hang, w2) => (Hang, w2)
      end
  | (Raise e, w1) => handlers e w1
  | (Hang, w1) => (Hang, w1)
  end.
Proof.
  intros Hrc. unfold get. rewrite Hrc.
  unfold try_except, bind, with_client, loads, ret, raise.
  destruct (blpop _ _ _ _) as [[[[l id]|]|e|] w1]; try done.
  destruct (hget _ _ _ _) as [[[text|]|e|] w2]; try done.
  by destruct (json_loads text).
Qed.

Lemma dequeue_run (eself : EndpointQueue) rc timeout w :
  redis_client (super eself) = Some rc →
  dequeue Task_from_id eself timeout w =
  match blpop rc (queue_name eself) timeout w with
  | (Ret None, w1) => (Raise Empty, w1)
  | (Ret (Some (_, task_id)), w1) => (Ret (Task_from_id (Some rc) task_id), w1)
  | (Raise e, w1) => (Raise e, w1)
  | (Hang, w1) => (Hang, w1)
  end.
Proof.
  intros Hrc. unfold dequeue. rewrite Hrc. unfold bind, with_client, ret, raise.
  by destruct (blpop _ _ _ _) as [[[[l id]|]|e|] w1].
Qed.

(** The store never raises [Empty]. *)
Lemma blpop_not_Empty rc name timeout w : fst (blpop rc name timeout w) ≠ Raise Empty.
Proof. rewrite blpop_run. simpl. repeat case_match; simplify_eq/=; done. Qed.

Lemma hget_not_Empty rc name key w : fst (hget rc name key w) ≠ Raise Empty.
Proof. rewrite hget_run. simpl. repeat case_match; simplify_eq/=; done. Qed.

(** [get] raises [Empty] exactly when the blocking pop returns nothing. *)
Lemma get_Empty_connected self rc kind timeout w :
  redis_client self = Some rc →
  fst (get self kind timeout w) = Raise Empty
  ↔ fst (blpop rc (prefix self +:+ "_list") timeout w) = Ret None.
Proof.
  intros Hrc. rewrite (get_run _ rc) by done. simpl.
  pose proof (blpop_not_Empty rc (prefix self +:+ "_list") timeout w) as Hb.
  destruct (blpop _ _ _ _) as [[[[l id]|]|e|] w1]; simpl in *; [| done | |done].
  - split; [|done]. intros Hget. exfalso.
    pose proof (hget_not_Empty rc ("task_" +:+ id) kind w1) as Hg.
    destruct (hget _ _ _ _) as [[[text|]|e|] w2]; simpl in *; try done.
    + by destruct (json_loads text).
    + destruct e; try done; revert Hget; by run.
  - split; [|done]. intros Hget. exfalso.
    destruct e; try done; revert Hget; by run.
Qed.

Lemma get_Empty_iff self kind timeout w :
  fst (get self kind timeout w) = Raise Empty
  ↔ ∃ rc, redis_client self = Some rc
      ∧ fst (blpop rc (prefix self +:+ "_list") timeout w) = Ret None.
Proof.
  destruct (redis_client self) as [rc|] eqn:Hrc.
  - rewrite (get_Empty_connected _ rc) by done.
    split; [eauto | by intros (? & [= <-] & ?)].
  - unfold get. rewrite Hrc. run. split; [done | by intros (? & [=] & _)].
Qed.

Lemma dequeue_Empty_connected (eself : EndpointQueue) rc timeout w :
  redis_client (super eself) = Some rc →
  fst (dequeue Task_from_id eself timeout w) = Raise Empty
  ↔ fst (blpop rc (queue_name eself) timeout w) = Ret None.
Proof.
  intros Hrc. rewrite (dequeue_run _ rc) by done.
  pose proof (blpop_not_Empty rc (queue_name eself) timeout w) as Hb.
  destruct (blpop _ _ _ _) as [[[[l id]|]|e|] w1]; simpl in *; try done.
  split; [|done]. by intros [= ->].
Qed.

Lemma dequeue_Empty_iff (eself : EndpointQueue) timeout w :
  fst (dequeue Task_from_id eself timeout w) = Raise Empty
  ↔ ∃ rc, redis_client (super eself) = Some rc
      ∧ fst (blpop rc (queue_name eself) timeout w) = Ret None.
Proof.
  destruct (redis_client (super eself)) as [rc|] eqn:Hrc.
  - rewrite (dequeue_Empty_connected _ rc) by done.
    split; [eauto | by intros (? & [= <-] & ?)].
  - unfold dequeue. rewrite Hrc. run. split; [done | by intros (? & [=] & _)].
Qed.

(** The blocking pop on a key where nothing waits, with a positive timeout
    and the server reachable. *)
Lemma blpop_empty rc name timeout w :
  (0 < timeout)%N → reachable 1 w → empty_list (store w) name →
  blpop rc name timeout w
  = (Ret None, set_clock (clock w + timeout)%N (issued (BLPOP name timeout) w)).
Proof.
  intros Ht Hup Hl. rewrite blpop_run. simpl.
  rewrite (server_up_reachable 0) by done.
  assert ((timeout =? 0)%N = false) as -> by (apply N.eqb_neq; lia).
  by destruct Hl as [-> | ->].
Qed.

End get_properties.

(** ** The timeout *)

(** C5, amended.  With a positive timeout [t], the server reachable and
    nothing waiting in the list, [get] and [dequeue] on a connected queue
    send one blocking pop with that timeout and raise [Empty] once the [t]
    seconds have passed on the clock, not before; and on any queue, in any
    world and for any timeout, [Empty] is raised exactly when the blocking
    pop returns nothing. *)
Theorem empty_after_timeout `{Json V}
    (Task_from_id : option StrictRedis → string → Task)
    (self : RedisQueue) (eself : EndpointQueue) (kind : string) (t : N)
    (w : World) :
  (0 < t)%N →
  is_connected self = true →
  is_connected (super eself) = true →
  reachable 1 w →
  empty_list (store w) (prefix self +:+ "_list") →
  empty_list (store w) (queue_name eself) →
  get self kind t w
    = (Raise Empty,
       set_clock (clock w + t)%N (issued (BLPOP (prefix self +:+ "_list") t) w))
  ∧ dequeue Task_from_id eself t w
    = (Raise Empty,
       set_clock (clock w + t)%N (issued (BLPOP (queue_name eself) t) w))
  ∧ (∀ t0 w0,
       fst (get self kind t0 w0) = Raise Empty
       ↔ ∃ rc, redis_client self = Some rc
           ∧ fst (blpop rc (prefix self +:+ "_list") t0 w0) = Ret None)
  ∧ (∀ t0 w0,
       fst (dequeue Task_from_id eself t0 w0) = Raise Empty
       ↔ ∃ rc, redis_client (super eself) = Some rc
           ∧ fst (blpop rc (queue_name eself) t0 w0) = Ret None).
Proof.
  unfold is_connected. intros Ht Hc He Hup Hl Hq.
  split_and!; [| |intros; apply get_Empty_iff|intros; apply dequeue_Empty_iff].
  - destruct (redis_client self) as [rc|] eqn:Hrc; [|done].
    rewrite (get_run _ rc) by done. by rewrite blpop_empty.
  - destruct (redis_client (super eself)) as [erc|] eqn:Herc; [|done].
    rewrite (dequeue_run _ _ erc) by done. by rewrite blpop_empty.
Qed.

Lemma empty_after_timeout_witness :
  get rq0 "result" 2 world0
    = (Raise Empty, mkWorld ∅ [] 2 [BLPOP "task_list" 2] [] 0)
  ∧ dequeue created_task eq0 2 world0
    = (Raise Empty, mkWorld ∅ [] 2 [BLPOP "task_ep-a_list" 2] [] 0).
Proof.
  pose proof (empty_after_timeout created_task rq0 eq0 "result" 2 world0) as W.
  destruct W as (Hg & Hd & _).
  - reflexivity.
  - reflexivity.
  - reflexivity.
  - unfold reachable. vm_compute. apply not_elem_of_nil.
  - left. reflexivity.
  - left. reflexivity.
  - split; [exact Hg | exact Hd].
Defined.

(** C5 as stated fails for the timeout 0: with nothing in the list the
    blocking pop never returns, so neither [get] nor [dequeue] raises
    [Empty]. *)
Lemma timeout_zero_never_Empty :
  empty_list (store world0) "task_list"
  ∧ empty_list (store world0) "task_ep-a_list"
  ∧ fst (get rq0 "result" 0 world0) = (Hang : outcome (string * jlit))
  ∧ fst (get rq0 "result" 0 world0) ≠ (Raise Empty : outcome (string * jlit))
  ∧ fst (dequeue created_task eq0 0 world0) = Hang
  ∧ fst (dequeue created_task eq0 0 world0) ≠ Raise Empty.
Proof. split_and!; try (by left); try (vm_compute; done). Qed.

(** ** [put] followed by [get] *)

(** C1, amended.  When nothing waits in the list [<prefix>_list], a [put]
    that returns, followed by a [get] of the same kind that the server
    answers, returns the task id with the payload as [json.loads] reads the
    text [json.dumps] made of it, and leaves the list empty again. *)
Theorem put_then_get `{Json V} (self : RedisQueue) (tid kind : string)
    (payload p : V) (timeout : N) (w w1 : World) :
  empty_list (store w) (prefix self +:+ "_list") →
  put self tid kind payload w = (Ret tt, w1) →
  reachable 2 w1 →
  json_loads (json_dumps payload) = Some p →
  get self kind timeout w1
  = (Ret (tid, p),
     set_store (delete (prefix self +:+ "_list") (store w1))
       (issued (HGET ("task_" +:+ tid) kind)
          (issued (BLPOP (prefix self +:+ "_list") timeout) w1))).
Proof.
  intros Hl Hput Hup Hjson.
  set (hk := "task_" +:+ tid) in *. set (lk := prefix self +:+ "_list") in *.
  destruct (put_cases self tid kind payload w) as [[] Hst];
    rewrite Hput in Hst; simpl in Hst;
    [by destruct Hst as (_ & ? & _) | by destruct Hst as ([?|?] & _)
    | by destruct Hst as ([?|?] & _) |].
  fold hk lk in Hst. destruct Hst as (_ & Hne & Hw & _ & rc & _ & Hrc & _).
  assert (list_at (store w) lk = []) as Hnil.
  { unfold list_at. by destruct Hl as [-> | ->]. }
  assert (store w1 !! lk = Some (RList [tid])) as Hlk.
  { rewrite Hw, Hnil. simpl. by rewrite lookup_insert_eq. }
  assert (store w1 !! hk
          = Some (RHash (<[kind := json_dumps payload]> (hash_at (store w) hk))))
    as Hhk.
  { rewrite Hw. rewrite lookup_insert_ne by done.
    unfold written. by rewrite lookup_insert_eq. }
  rewrite (get_run _ rc) by done. fold lk. rewrite blpop_run. simpl.
  rewrite (server_up_reachable 1) by done. rewrite Hlk.
  fold hk. rewrite hget_run. simpl.
  assert (server_up (issued (BLPOP lk timeout) w1) = true) as Hup1.
  { apply (server_up_reachable 0). by apply reachable_issued. }
  replace (server_up (set_store _ _)) with true by done.
  rewrite lookup_delete_ne by done. rewrite Hhk, lookup_insert_eq, Hjson.
  done.
Qed.

Lemma put_then_get_witness :
  fst (get rq0 "result" 1 (snd (put rq0 "01" "result" JTrue world0)))
  = Ret ("01", JTrue).
Proof.
  pose proof (put_then_get rq0 "01" "result" JTrue JTrue 1 world0
                (snd (put rq0 "01" "result" JTrue world0))) as W.
  rewrite W.
  - reflexivity.
  - left. reflexivity.
  - vm_compute. reflexivity.
  - unfold reachable. vm_compute. apply not_elem_of_nil.
  - reflexivity.
Defined.

(** C1 as stated fails on a list that already holds an id: [put] pushes at
    the tail, [get] pops the head, so the pair returned is the older task's. *)
Lemma put_then_get_returns_head :
  is_connected rq0 = true
  ∧ json_loads (json_dumps JTrue) = Some JTrue
  ∧ fst ((put rq0 "new" "result" JTrue ;; get rq0 "result" 1) world_busy)
    = Ret ("old", JFalse)
  ∧ fst ((put rq0 "new" "result" JTrue ;; get rq0 "result" 1) world_busy)
    ≠ Ret ("new", JTrue).
Proof. split_and!; try reflexivity. vm_compute. discriminate. Qed.

(** ** The claims on concrete runs *)

Lemma store_key_layout_witness :
  let w' := snd (put rq0 "01" "result" JTrue world0) in
  sent w' = [HSET "task_01" "result" "true"; RPUSH "task_list" "01"]
  ∧ store w' = <["task_list" := RList ["01"]]>
                 (<["task_01" := RHash {["result" := "true"]}]> ∅)
  ∧ prefix (super (EndpointQueue_init "ep-a" "127.0.0.1" default_port))
    = "task_ep-a"
  ∧ queue_name (EndpointQueue_init "ep-a" "127.0.0.1" default_port)
    = "task_ep-a_list".
Proof.
  intros w'.
  pose proof (store_key_layout rq0 "01" "result" JTrue world0 w'
                "ep-a" "127.0.0.1" default_port) as W.
  vm_compute in W |- *. apply W. reflexivity.
Defined.

Lemma put_overwrites_only_its_field_witness :
  let r := put rq0 "old" "status" JNull world_busy in
  hfield (store (snd r)) "task_old" "result" = Some "false"
  ∧ hfield (store (snd r)) "task_old" "status" = Some "null".
Proof.
  intros r.
  pose proof (put_overwrites_only_its_field rq0 "old" "status" JNull
                world_busy "result") as W.
  destruct W as (Hframe & Hfield & _).
  - vm_compute. discriminate.
  - split.
    + etrans; [exact Hframe | reflexivity].
    + apply Hfield. reflexivity.
Defined.

(** The scenario of the spec: a task enqueued for [ep-a] is dequeued there,
    while a dequeue for [ep-b] times out. *)
Example endpoint_scenario :
  let w1 := snd (snd (enqueue eq0 (mkTask "t1" CREATED None, world0))) in
  fst (dequeue created_task eq0 2 w1) = Ret (mkTask "t1" CREATED None)
  ∧ fst (dequeue created_task (connected_endpoint "ep-b") 1 w1) = Raise Empty.
Proof. vm_compute. done. Qed.

(** * Further properties of the queue module *)

(** ** The connection life cycle *)

(** [connect] returns exactly when it leaves the queue with a handle; the
    only exception it raises is [ConnectionError]; host, port and prefix
    stay as they were. *)
Theorem connect_returns_iff_connected (self : RedisQueue) (w : World) :
  let r := connect (self, w) in
  (fst r = Ret tt ↔ is_connected (fst (snd r)) = true)
  ∧ (fst r = Ret tt ∨ fst r = Raise ConnectionError)
  ∧ hostname (fst (snd r)) = hostname self
  ∧ port (fst (snd r)) = port self
  ∧ prefix (fst (snd r)) = prefix self.
Proof.
  simpl. rewrite connect_run. unfold is_connected.
  destruct (redis_client self) as [rc|] eqn:Hrc; simpl.
  - rewrite Hrc. split_and!; auto; done.
  - split_and!; auto; done.
Qed.

(** [connect] opens no connection.  On an unconnected queue it returns and
    leaves a handle also when the server cannot be reached; it sends
    nothing, prints nothing and uses up no call to the server.  The
    unreachable server shows at the first command: [put] and [get] on the
    connected queue print the line with host and port and raise
    [ConnectionError], with the key space as it was. *)
Theorem connect_opens_no_connection `{Json V} (self : RedisQueue)
    (tid kind : string) (payload : V) (timeout : N) (w : World) :
  is_connected self = false →
  server_up w = false →
  let s := connect (self, w) in
  let q := fst (snd s) in
  let w1 := snd (snd s) in
  fst s = Ret tt
  ∧ is_connected q = true
  ∧ sent w1 = sent w ∧ stdout w1 = stdout w ∧ net w1 = net w
  ∧ store w1 = store w
  ∧ fst (put q tid kind payload w1) = Raise ConnectionError
  ∧ stdout (snd (put q tid kind payload w1))
    = stdout w ++ [connection_error_line self]
  ∧ store (snd (put q tid kind payload w1)) = store w
  ∧ fst (get q kind timeout w1) = Raise ConnectionError
  ∧ stdout (snd (get q kind timeout w1))
    = stdout w ++ [connection_error_line self]
  ∧ store (snd (get q kind timeout w1)) = store w.
Proof.
  unfold is_connected. intros Hc Hdown. simpl.
  destruct (redis_client self) as [rc|] eqn:Hrc; [done|].
  rewrite connect_run, Hrc. simpl.
  set (client := mkStrictRedis (made w) (hostname self) (port self) true).
  set (q := set_redis_client (Some client) self).
  set (w1 := set_made (S (made w)) w).
  assert (server_up w1 = false) as Hdown1 by exact Hdown.
  rewrite (put_run q client) by done. rewrite hset_run. simpl.
  rewrite Hdown1. simpl.
  rewrite (get_run q client) by done. rewrite blpop_run. simpl.
  rewrite Hdown1. simpl. split_and!; done.
Qed.

Lemma connect_opens_no_connection_witness :
  let q := RedisQueue_init "task" "127.0.0.1" default_port in
  let w := mkWorld ∅ [false] 0 [] [] 0 in
  let s := connect (q, w) in
  fst s = Ret tt
  ∧ is_connected (fst (snd s)) = true
  ∧ fst (put (fst (snd s)) "01" "result" JTrue (snd (snd s)))
    = Raise ConnectionError
  ∧ stdout (snd (put (fst (snd s)) "01" "result" JTrue (snd (snd s))))
    = ["ConnectionError while trying to connect to Redis@127.0.0.1:6379"].
Proof.
  intros q w s.
  pose proof (connect_opens_no_connection q "01" "result" JTrue 1 w) as W.
  destruct W as (H1 & H2 & _ & _ & _ & _ & H7 & H8 & _); [reflexivity..|].
  split_and!; [exact H1 | exact H2 | exact H7 | exact H8].
Defined.

(** ** Which exceptions come out *)

Section outcomes.
Context {V : Type} `{!Json V}.
Variable Task_from_id : option StrictRedis → string → Task.
Implicit Types (self : RedisQueue) (eself : EndpointQueue) (w : World).

(** Every way a call of [get] on a connected queue can go, with the key
    space and the printed lines it leaves. *)
Lemma get_cases self rc kind timeout w :
  redis_client self = Some rc →
  let lk := prefix self +:+ "_list" in
  let r := fst (get self kind timeout w) in
  let w' := snd (get self kind timeout w) in
  let line := connection_error_line self in
  (store w' = store w
   ∧ ((r = Raise ConnectionError ∧ stdout w' = stdout w ++ [line]
       ∧ server_up w = false)
      ∨ (r = Raise (ResponseError WRONGTYPE) ∧ stdout w' = stdout w
         ∧ list_at (store w) lk = [])
      ∨ (r = Hang ∧ timeout = 0%N ∧ stdout w' = stdout w
         ∧ empty_list (store w) lk)
      ∨ (r = Raise Empty ∧ timeout ≠ 0%N ∧ stdout w' = stdout w
         ∧ empty_list (store w) lk)))
  ∨ (∃ x l, store w !! lk = Some (RList (x :: l))
       ∧ store w' = popped (store w) lk l
       ∧ clock w' = clock w
       ∧ ((r = Raise ConnectionError ∧ stdout w' = stdout w ++ [line])
          ∨ (r = Raise (ResponseError WRONGTYPE) ∧ stdout w' = stdout w)
          ∨ (r = Raise TypeError ∧ stdout w' = stdout w
             ∧ hfield (store w') ("task_" +:+ x) kind = None)
          ∨ (∃ text, r = Raise JSONDecodeError ∧ stdout w' = stdout w
               ∧ hfield (store w') ("task_" +:+ x) kind = Some text
               ∧ json_loads text = None)
          ∨ (∃ text v, r = Ret (x, v) ∧ stdout w' = stdout w
               ∧ hfield (store w') ("task_" +:+ x) kind = Some text
               ∧ json_loads text = Some v))).
Proof.
  intros Hrc lk r w' line. subst r w'.
  destruct (get self kind timeout w) as [r w'] eqn:Hget. simpl.
  rewrite (get_run _ rc) in Hget by done. fold lk in Hget.
  rewrite blpop_run in Hget. unfold list_at, empty_list.
  autounfold with py in Hget. simpl in Hget.
  destruct (server_up w); simpl in Hget;
    [|injection Hget as <- <-; left; auto 10].
  destruct (store w !! lk) as [[s|[|x l]|h]|] eqn:Elk; simpl in Hget.
  - injection Hget as <- <-. left; auto 10.
  - left. destruct (N.eqb_spec timeout 0); injection Hget as <- <-; auto 10.
  - right. exists x, l. rewrite hget_run in Hget. simpl in Hget.
    replace (server_up (set_store _ _)) with
      (server_up (issued (BLPOP lk timeout) w)) in Hget by done.
    fold (popped (store w) lk l) in Hget.
    destruct (server_up (issued (BLPOP lk timeout) w)); simpl in Hget;
      [|injection Hget as <- <-; split_and!; auto 10].
    unfold hfield, hash_at.
    destruct (popped (store w) lk l !! ("task_" +:+ x)) as [[s|l'|h]|] eqn:Ehk;
      simpl in Hget.
    + injection Hget as <- <-. split_and!; auto 10.
    + injection Hget as <- <-. split_and!; auto 10.
    + destruct (h !! kind) as [text|] eqn:Ef; simpl in Hget.
      * destruct (json_loads text) as [v|] eqn:Ej; injection Hget as <- <-;
          simpl; rewrite Ehk; split_and!; auto.
        -- do 4 right. eauto 10.
        -- do 3 right. left. eauto 10.
      * injection Hget as <- <-. simpl. rewrite Ehk.
        split_and!; auto 10.
    + injection Hget as <- <-. simpl. rewrite Ehk. split_and!; auto 10.
  - injection Hget as <- <-. left; auto 10.
  - left. destruct (N.eqb_spec timeout 0); injection Hget as <- <-; auto 10.
Qed.

(** Every way a call of [dequeue] on a connected queue can go. *)
Lemma dequeue_cases eself rc timeout w :
  redis_client (super eself) = Some rc →
  let qn := queue_name eself in
  let r := fst (dequeue Task_from_id eself timeout w) in
  let w' := snd (dequeue Task_from_id eself timeout w) in
  stdout w' = stdout w
  ∧ ((store w' = store w
      ∧ ((r = Raise ConnectionError ∧ server_up w = false)
         ∨ (r = Raise (ResponseError WRONGTYPE) ∧ list_at (store w) qn = [])
         ∨ (r = Hang ∧ timeout = 0%N ∧ empty_list (store w) qn)
         ∨ (r = Raise Empty ∧ timeout ≠ 0%N ∧ empty_list (store w) qn)))
     ∨ (∃ x l, store w !! qn = Some (RList (x :: l))
          ∧ store w' = popped (store w) qn l
          ∧ clock w' = clock w
          ∧ r = Ret (Task_from_id (Some rc) x))).
Proof.
  intros Hrc qn r w'. subst r w'.
  destruct (dequeue Task_from_id eself timeout w) as [r w'] eqn:Hd. simpl.
  rewrite (dequeue_run _ _ rc) in Hd by done. fold qn in Hd.
  rewrite blpop_run in Hd. unfold list_at, empty_list. simpl in Hd.
  destruct (server_up w); simpl in Hd; [|injection Hd as <- <-; auto 10].
  destruct (store w !! qn) as [[s|[|x l]|h]|] eqn:Elk; simpl in Hd.
  - injection Hd as <- <-. auto 10.
  - destruct (N.eqb_spec timeout 0); injection Hd as <- <-; auto 10.
  - injection Hd as <- <-. split; [done|]. right. eauto 10.
  - injection Hd as <- <-. auto 10.
  - destruct (N.eqb_spec timeout 0); injection Hd as <- <-; auto 10.
Qed.

End outcomes.

(** ** The key space under a pop and a push *)

Lemma lookup_popped ks name l name' :
  popped ks name l !! name'
  = if decide (name = name')
    then match l with [] => None | _ => Some (RList l) end
    else ks !! name'.
Proof.
  unfold popped. case_decide as Hn.
  - subst. destruct l; [apply lookup_delete_eq | apply lookup_insert_eq].
  - destruct l; [by apply lookup_delete_ne | by apply lookup_insert_ne].
Qed.

Lemma list_at_popped ks name l : list_at (popped ks name l) name = l.
Proof.
  unfold list_at. rewrite lookup_popped. case_decide; [|done]. by destruct l.
Qed.

Lemma list_at_popped_ne ks name l name' :
  name ≠ name' → list_at (popped ks name l) name' = list_at ks name'.
Proof. intros. unfold list_at. rewrite lookup_popped. by case_decide. Qed.

Lemma hfield_popped ks name x l name' key :
  ks !! name = Some (RList (x :: l)) →
  hfield (popped ks name l) name' key = hfield ks name' key.
Proof.
  intros Hl. unfold hfield, hash_at. rewrite lookup_popped.
  case_decide as Hn; [|done]. subst. rewrite Hl. by destruct l.
Qed.

Lemma hfield_pushed ks name l name' key :
  hash_at ks name = ∅ →
  hfield (<[name := RList l]> ks) name' key = hfield ks name' key.
Proof.
  intros Hh. unfold hfield. destruct (decide (name = name')) as [<-|Hn].
  - rewrite Hh. unfold hash_at. by rewrite lookup_insert_eq.
  - unfold hash_at. by rewrite lookup_insert_ne.
Qed.

Lemma list_at_pushed ks name l name' :
  list_at (<[name := RList l]> ks) name'
  = if decide (name = name') then l else list_at ks name'.
Proof.
  unfold list_at. case_decide as Hn.
  - subst. by rewrite lookup_insert_eq.
  - by rewrite lookup_insert_ne.
Qed.

Lemma list_at_written_any ks hk kind value name :
  list_at ks hk = [] → list_at (written ks hk kind value) name = list_at ks name.
Proof.
  intros Hl. destruct (decide (hk = name)) as [<-|Hn].
  - rewrite Hl. unfold list_at, written. by rewrite lookup_insert_eq.
  - by apply list_at_written.
Qed.

(** Every way a call of [enqueue] can go, with the world it leaves. *)
Lemma enqueue_cases (self : EndpointQueue) task w :
  let qn := queue_name self in
  let r := fst (enqueue self (task, w)) in
  let w' := snd (snd (enqueue self (task, w))) in
  stdout w' = stdout w ∧ clock w' = clock w
  ∧ ((r = Raise AttributeError ∧ redis_client (super self) = None ∧ w' = w)
     ∨ ((r = Raise ConnectionError ∨ r = Raise (ResponseError WRONGTYPE))
        ∧ store w' = store w)
     ∨ (r = Ret tt ∧ hash_at (store w) qn = ∅
        ∧ store w' = <[qn := RList (list_at (store w) qn ++ [task_id task])]>
                       (store w))).
Proof.
  intros qn r w'. subst r w'. rewrite enqueue_run. simpl.
  destruct (redis_client (super self)) as [rc|]; [|auto 10].
  destruct (rpush_cases rc qn (task_id task) w)
    as [(n & Hp & Hh) | (e & He & Hp)]; fold qn; rewrite Hp; simpl.
  - auto 10.
  - destruct He as [-> | ->]; auto 10.
Qed.

Section outcome_properties.
Context {V : Type} `{!Json V}.
Variable Task_from_id : option StrictRedis → string → Task.
Implicit Types (self : RedisQueue) (eself : EndpointQueue) (w : World).

Lemma get_unconnected self kind timeout w :
  redis_client self = None →
  get self kind timeout w = (Raise (NotConnected self), w).
Proof. intros Hrc. unfold get. rewrite Hrc. by run. Qed.

Lemma put_unconnected self tid kind (payload : V) w :
  redis_client self = None →
  put self tid kind payload w = (Raise (NotConnected self), w).
Proof. intros Hrc. unfold put. rewrite Hrc. by run. Qed.

Lemma dequeue_unconnected eself timeout w :
  redis_client (super eself) = None →
  dequeue Task_from_id eself timeout w = (Raise AttributeError, w).
Proof. intros Hrc. unfold dequeue. rewrite Hrc. by run. Qed.

(** The lines [put] prints: one, when it raises [ConnectionError]. *)
Lemma put_stdout self tid kind (payload : V) w :
  stdout (snd (put self tid kind payload w))
  = stdout w ++ match fst (put self tid kind payload w) with
                | Raise ConnectionError => [connection_error_line self]
                | _ => []
                end.
Proof.
  destruct (redis_client self) as [rc|] eqn:Hrc; cycle 1.
  { rewrite put_unconnected by done. simpl. by rewrite app_nil_r. }
  rewrite (put_run _ rc) by done.
  destruct (hset_cases rc ("task_" +:+ tid) kind (json_dumps payload) w)
    as [(n & -> & _) | (e & He & ->)]; cycle 1.
  { destruct He as [-> | ->]; simpl; by rewrite ?app_nil_r. }
  match goal with
  | |- context [rpush rc ?lk tid ?w1] =>
      destruct (rpush_cases rc lk tid w1) as [(m & -> & _) | (e & He & ->)]
  end; simpl; [by rewrite app_nil_r|].
  destruct He as [-> | ->]; simpl; by rewrite ?app_nil_r.
Qed.

(** [NotConnected] comes out of [get] and [put] exactly on a queue without
    a handle, and it then carries that queue. *)
Theorem not_connected_exactly_when_unconnected self tid kind (payload : V)
    timeout w (q : RedisQueue) :
  (fst (get self kind timeout w) = Raise (NotConnected q)
   ↔ is_connected self = false ∧ q = self)
  ∧ (fst (put self tid kind payload w) = Raise (NotConnected q)
     ↔ is_connected self = false ∧ q = self).
Proof.
  unfold is_connected. destruct (redis_client self) as [rc|] eqn:Hrc.
  - split.
    + split; [|by intros [? _]]. intros Hg. exfalso.
      destruct (get_cases self rc kind timeout w Hrc)
        as [(_ & Hc) | (x & l & _ & _ & _ & Hc)]; rewrite Hg in Hc.
      * destruct Hc as [(?&_)|[(?&_)|[(?&_)|(?&_)]]]; done.
      * destruct Hc as [(?&_)|[(?&_)|[(?&_)|[(?&?&_)|(?&?&?&_)]]]]; done.
    + split; [|by intros [? _]]. intros Hp. exfalso.
      destruct (put_cases self tid kind payload w) as [[] Hst];
        rewrite Hp in Hst; simpl in Hst.
      * destruct Hst as (Hn & _). by rewrite Hrc in Hn.
      * by destruct Hst as ([?|?] & _).
      * by destruct Hst as ([?|?] & _).
      * by destruct Hst as (? & _).
  - rewrite get_unconnected, put_unconnected by done. simpl.
    split; (split; [by intros [= ->] | by intros [_ ->]]).
Qed.

(** The outcomes of [put] and [get]: [put] returns or raises
    [NotConnected], [ConnectionError] or [ResponseError], and never blocks;
    [get] blocks for good only with timeout 0, and raises nothing but
    [NotConnected], [Empty], [ConnectionError], [ResponseError],
    [TypeError] and [JSONDecodeError].  Neither lets an [AttributeError]
    through. *)
Theorem get_put_outcomes self tid kind (payload : V) timeout w :
  let rp := fst (put self tid kind payload w) in
  let rg := fst (get self kind timeout w) in
  (rp = Ret tt ∨ rp = Raise (NotConnected self) ∨ rp = Raise ConnectionError
   ∨ rp = Raise (ResponseError WRONGTYPE))
  ∧ (rg = Hang → timeout = 0%N)
  ∧ (∀ e, rg = Raise e →
       e = NotConnected self ∨ e = Empty ∨ e = ConnectionError
       ∨ e = ResponseError WRONGTYPE ∨ e = TypeError ∨ e = JSONDecodeError).
Proof.
  intros rp rg. subst rp rg. split_and!.
  - destruct (put_cases self tid kind payload w) as [[] Hst]; simpl in Hst.
    + destruct Hst as (_ & -> & _). auto.
    + destruct Hst as ([-> | ->] & _); auto.
    + destruct Hst as ([-> | ->] & _); auto.
    + destruct Hst as (-> & _). auto.
  - destruct (redis_client self) as [rc|] eqn:Hrc;
      [|by rewrite get_unconnected].
    intros Hg.
    destruct (get_cases self rc kind timeout w Hrc)
      as [(_ & Hc) | (x & l & _ & _ & _ & Hc)]; rewrite Hg in Hc.
    + destruct Hc as [(?&_)|[(?&_)|[(_&?&_)|(?&_)]]]; done.
    + destruct Hc as [(?&_)|[(?&_)|[(?&_)|[(?&?&_)|(?&?&?&_)]]]]; done.
  - intros e Hg. destruct (redis_client self) as [rc|] eqn:Hrc; cycle 1.
    { rewrite get_unconnected in Hg by done. injection Hg as <-. auto. }
    destruct (get_cases self rc kind timeout w Hrc)
      as [(_ & Hc) | (x & l & _ & _ & _ & Hc)]; rewrite Hg in Hc.
    + destruct Hc as [(?&_)|[(?&_)|[(?&_)|(?&_)]]]; simplify_eq; auto 10.
    + destruct Hc as [(?&_)|[(?&_)|[(?&_)|[(?&?&_)|(?&?&?&_)]]]];
        simplify_eq; auto 10.
Qed.

(** The outcomes of [enqueue] and [dequeue]: [AttributeError] exactly on a
    queue without a handle, otherwise a return or a store error, and for
    [dequeue] also [Empty]; [dequeue] blocks for good only with timeout 0.
    [NotConnected] is never raised. *)
Theorem enqueue_dequeue_outcomes eself (task : Task) timeout w :
  let re := fst (enqueue eself (task, w)) in
  let rd := fst (dequeue Task_from_id eself timeout w) in
  (re = Ret tt ∨ re = Raise AttributeError ∨ re = Raise ConnectionError
   ∨ re = Raise (ResponseError WRONGTYPE))
  ∧ (re = Raise AttributeError ↔ is_connected (super eself) = false)
  ∧ (rd = Raise AttributeError ↔ is_connected (super eself) = false)
  ∧ (rd = Hang → timeout = 0%N)
  ∧ (∀ e, rd = Raise e →
       e = AttributeError ∨ e = Empty ∨ e = ConnectionError
       ∨ e = ResponseError WRONGTYPE).
Proof.
  intros re rd. subst re rd. unfold is_connected.
  destruct (redis_client (super eself)) as [rc|] eqn:Hrc; cycle 1.
  { rewrite dequeue_unconnected, enqueue_run, Hrc by done. simpl.
    split_and!; auto; try done. intros e [= <-]; auto. }
  destruct (enqueue_cases eself task w) as (_ & _ & He). simpl in He.
  destruct (dequeue_cases Task_from_id eself rc timeout w Hrc) as (_ & Hd).
  simpl in Hd. split_and!.
  - destruct He as [(-> & _)|[([->| ->] & _)|(-> & _)]]; auto.
  - split; [|done]. intros Hr.
    destruct He as [(_ & ? & _)|[([Hx|Hx] & _)|(Hx & _)]];
      [congruence|rewrite Hx in Hr; done..].
  - split; [|done]. intros Hr. rewrite Hr in Hd.
    destruct Hd as [(_ & [(?&_)|[(?&_)|[(?&_)|(?&_)]]]) | (?&?&_&_&_&?)];
      done.
  - intros Hr. rewrite Hr in Hd.
    destruct Hd as [(_ & [(?&_)|[(?&_)|[(_&?&_)|(?&_)]]]) | (?&?&_&_&_&?)];
      done.
  - intros e Hr. rewrite Hr in Hd.
    destruct Hd as [(_ & [(?&_)|[(?&_)|[(?&_)|(?&_)]]]) | (?&?&_&_&_&?)];
      simplify_eq; auto.
Qed.

(** What is printed: [get] and [put] print the line with host and port once
    when they raise [ConnectionError] and nothing otherwise; [enqueue] and
    [dequeue] print nothing. *)
Theorem printed_lines self eself tid kind (payload : V) (task : Task) timeout w :
  stdout (snd (get self kind timeout w))
    = stdout w ++ match fst (get self kind timeout w) with
                  | Raise ConnectionError => [connection_error_line self]
                  | _ => []
                  end
  ∧ stdout (snd (put self tid kind payload w))
    = stdout w ++ match fst (put self tid kind payload w) with
                  | Raise ConnectionError => [connection_error_line self]
                  | _ => []
                  end
  ∧ stdout (snd (snd (enqueue eself (task, w)))) = stdout w
  ∧ stdout (snd (dequeue Task_from_id eself timeout w)) = stdout w.
Proof.
  split_and!.
  - destruct (redis_client self) as [rc|] eqn:Hrc; cycle 1.
    { rewrite get_unconnected by done. simpl. by rewrite app_nil_r. }
    destruct (get_cases self rc kind timeout w Hrc)
      as [(_ & Hc) | (x & l & _ & _ & _ & Hc)].
    + destruct Hc as [(->& -> &_)|[(->& -> &_)|[(->&_& -> &_)|(->&_& -> &_)]]];
        by rewrite ?app_nil_r.
    + destruct Hc as [(->& ->)|[(->& ->)|[(->& -> &_)
                      |[(?& -> & -> &_)|(?&?& -> & -> &_)]]]];
        by rewrite ?app_nil_r.
  - apply put_stdout.
  - by destruct (enqueue_cases eself task w) as (? & _).
  - destruct (redis_client (super eself)) as [rc|] eqn:Hrc;
      [|by rewrite dequeue_unconnected].
    by destruct (dequeue_cases Task_from_id eself rc timeout w Hrc) as (? & _).
Qed.

End outcome_properties.

(** ** [get] and [dequeue] on a list that holds ids *)

Section head_properties.
Context {V : Type} `{!Json V}.
Variable Task_from_id : option StrictRedis → string → Task.
Implicit Types (self : RedisQueue) (eself : EndpointQueue) (w : World).

(** [get] when an id waits and the server answers both calls: the head is
    taken at once, then its record decides. *)
Lemma get_head self rc kind timeout w x l :
  redis_client self = Some rc →
  reachable 2 w →
  store w !! (prefix self +:+ "_list") = Some (RList (x :: l)) →
  get self kind timeout w =
  let lk := prefix self +:+ "_list" in
  let hk := "task_" +:+ x in
  let w2 := set_store (popped (store w) lk l)
              (issued (HGET hk kind) (issued (BLPOP lk timeout) w)) in
  match popped (store w) lk l !! hk with
  | None => (Raise TypeError, w2)
  | Some (RHash h) =>
      match h !! kind with
      | None => (Raise TypeError, w2)
      | Some text =>
          match json_loads text with
          | Some v => (Ret (x, v), w2)
          | None => (Raise JSONDecodeError, w2)
          end
      end
  | Some _ => (Raise (ResponseError WRONGTYPE), w2)
  end.
Proof.
  intros Hrc Hup Hl. rewrite (get_run _ rc) by done. rewrite blpop_run. simpl.
  rewrite (server_up_reachable 1) by done. rewrite Hl.
  rewrite hget_run. simpl.
  assert (server_up (issued (BLPOP (prefix self +:+ "_list") timeout) w) = true)
    as Hup1.
  { apply (server_up_reachable 0). by apply reachable_issued. }
  replace (server_up (set_store _ _)) with true by done.
  unfold popped.
  by destruct (_ !! ("task_" +:+ x)) as [[s|l'|h]|].
Qed.

(** With an id waiting and the server reachable, [get] takes the head of
    the list whatever its outcome, leaves every other key alone and does not
    wait; when it returns, the id it returns is that head. *)
Theorem get_takes_the_head self rc kind timeout w x l :
  redis_client self = Some rc →
  server_up w = true →
  store w !! (prefix self +:+ "_list") = Some (RList (x :: l)) →
  let r := get self kind timeout w in
  list_at (store (snd r)) (prefix self +:+ "_list") = l
  ∧ (∀ name, name ≠ prefix self +:+ "_list" →
       store (snd r) !! name = store w !! name)
  ∧ clock (snd r) = clock w
  ∧ (∀ id (v : V), fst r = Ret (id, v) → id = x).
Proof.
  intros Hrc Hup Hl r. subst r.
  destruct (get_cases self rc kind timeout w Hrc)
    as [(_ & Hc) | (x' & l' & Hl' & Hs & Hclock & Hc)].
  - exfalso. unfold list_at, empty_list in Hc. rewrite Hl in Hc.
    destruct Hc as [(_&_&?)|[(_&_&?)|[(_&_&_&[?|?])|(_&_&_&[?|?])]]];
      congruence.
  - rewrite Hl in Hl'. injection Hl' as <- <-. rewrite Hs. split_and!.
    + apply list_at_popped.
    + intros name Hn. rewrite lookup_popped. by case_decide.
    + done.
    + intros id v Hr. rewrite Hr in Hc.
      destruct Hc as [(?&_)|[(?&_)|[(?&_)|[(?&?&_)|(?&?&?&_)]]]];
        congruence.
Qed.

(** When the task at the head has no record, or its record lacks the field
    [kind], [get] raises [TypeError], and the id is gone from the list. *)
Theorem get_missing_payload self rc kind timeout w x l :
  redis_client self = Some rc →
  reachable 2 w →
  store w !! (prefix self +:+ "_list") = Some (RList (x :: l)) →
  (store w !! ("task_" +:+ x) = None
   ∨ ∃ h, store w !! ("task_" +:+ x) = Some (RHash h) ∧ h !! kind = None) →
  get self kind timeout w
  = (Raise TypeError,
     set_store (popped (store w) (prefix self +:+ "_list") l)
       (issued (HGET ("task_" +:+ x) kind)
          (issued (BLPOP (prefix self +:+ "_list") timeout) w))).
Proof.
  intros Hrc Hup Hl Hrec. rewrite (get_head _ rc _ _ _ x l) by done. simpl.
  assert (prefix self +:+ "_list" ≠ "task_" +:+ x) as Hne.
  { intros Heq. rewrite Heq in Hl. destruct Hrec as [?|(h & ? & _)]; congruence. }
  rewrite lookup_popped. case_decide; [done|].
  destruct Hrec as [-> | (h & -> & ->)]; done.
Qed.

(** When the field holds text that [json.loads] rejects, [get] raises
    [JSONDecodeError], and the id is gone from the list. *)
Theorem get_malformed_payload self rc kind timeout w x l h text :
  redis_client self = Some rc →
  reachable 2 w →
  store w !! (prefix self +:+ "_list") = Some (RList (x :: l)) →
  store w !! ("task_" +:+ x) = Some (RHash h) →
  h !! kind = Some text →
  json_loads (V:=V) text = None →
  get self kind timeout w
  = (Raise JSONDecodeError,
     set_store (popped (store w) (prefix self +:+ "_list") l)
       (issued (HGET ("task_" +:+ x) kind)
          (issued (BLPOP (prefix self +:+ "_list") timeout) w))).
Proof.
  intros Hrc Hup Hl Hrec Hf Hj. rewrite (get_head _ rc _ _ _ x l) by done.
  simpl.
  assert (prefix self +:+ "_list" ≠ "task_" +:+ x) as Hne.
  { intros Heq. rewrite Heq in Hl. congruence. }
  rewrite lookup_popped. case_decide; [done|]. by rewrite Hrec, Hf, Hj.
Qed.

(** [get] returns the oldest id: with ids waiting and the head's field
    readable, it returns the head with the decoded payload at once, for any
    timeout, 0 included, and the rest of the list stays in order. *)
Theorem get_returns_oldest self rc kind timeout w x l h text (v : V) :
  redis_client self = Some rc →
  reachable 2 w →
  store w !! (prefix self +:+ "_list") = Some (RList (x :: l)) →
  store w !! ("task_" +:+ x) = Some (RHash h) →
  h !! kind = Some text →
  json_loads text = Some v →
  fst (get self kind timeout w) = Ret (x, v)
  ∧ list_at (store (snd (get self kind timeout w))) (prefix self +:+ "_list") = l
  ∧ clock (snd (get self kind timeout w)) = clock w.
Proof.
  intros Hrc Hup Hl Hrec Hf Hj. rewrite (get_head _ rc _ _ _ x l) by done.
  simpl.
  assert (prefix self +:+ "_list" ≠ "task_" +:+ x) as Hne.
  { intros Heq. rewrite Heq in Hl. congruence. }
  rewrite lookup_popped. case_decide; [done|]. rewrite Hrec, Hf, Hj. simpl.
  split_and!; [done|apply list_at_popped|done].
Qed.

(** [dequeue] with an id waiting: it returns, for any timeout, the task the
    lookup gives for the head, takes the head off the list and does not
    wait. *)
Theorem dequeue_returns_head eself rc timeout w x l :
  redis_client (super eself) = Some rc →
  server_up w = true →
  store w !! queue_name eself = Some (RList (x :: l)) →
  dequeue Task_from_id eself timeout w
  = (Ret (Task_from_id (Some rc) x),
     set_store (popped (store w) (queue_name eself) l)
       (issued (BLPOP (queue_name eself) timeout) w)).
Proof.
  intros Hrc Hup Hl. rewrite (dequeue_run _ _ rc) by done.
  rewrite blpop_run. simpl. by rewrite Hup, Hl.
Qed.

End head_properties.

Lemma get_takes_the_head_witness :
  list_at (store (snd (get rq0 "status" 1 world_busy
                            : outcome (string * jlit) * World))) "task_list" = []
  ∧ fst (get rq0 "status" 1 world_busy) = (Raise TypeError : outcome (string * jlit)).
Proof.
  pose proof (get_takes_the_head (V:=jlit) rq0 client0 "status" 1 world_busy "old" [])
    as W.
  destruct W as (Hlist & _); [reflexivity..|].
  split; [exact Hlist | reflexivity].
Defined.

Lemma get_missing_payload_witness :
  fst (get rq0 "status" 1 world_busy) = (Raise TypeError : outcome (string * jlit))
  ∧ store (snd (get rq0 "status" 1 world_busy
                   : outcome (string * jlit) * World)) !! "task_list" = None.
Proof.
  pose proof (get_missing_payload (V:=jlit) rq0 client0 "status" 1 world_busy "old" [])
    as W.
  rewrite W.
  - split; reflexivity.
  - reflexivity.
  - unfold reachable. vm_compute. apply not_elem_of_nil.
  - reflexivity.
  - right. exists {["result" := "false"]}. split; reflexivity.
Defined.

Lemma get_returns_oldest_witness :
  fst (get rq0 "result" 0 world_busy) = Ret ("old", JFalse)
  ∧ list_at (store (snd (get rq0 "result" 0 world_busy : outcome (string * jlit) * World)))
      "task_list" = [].
Proof.
  pose proof (get_returns_oldest rq0 client0 "result" 0 world_busy "old" []
                {["result" := "false"]} "false" JFalse) as W.
  destruct W as (Hr & Hl & _).
  - reflexivity.
  - unfold reachable. vm_compute. apply not_elem_of_nil.
  - reflexivity.
  - reflexivity.
  - reflexivity.
  - reflexivity.
  - split; [exact Hr | exact Hl].
Defined.

Lemma get_malformed_payload_witness :
  let w := mkWorld (<["task_list" := RList ["t"]]>
                      (<["task_t" := RHash {["result" := "{oops"]}]> ∅))
             [] 0 [] [] 0 in
  fst (get rq0 "result" 1 w) = (Raise JSONDecodeError : outcome (string * jlit))
  ∧ store (snd (get rq0 "result" 1 w : outcome (string * jlit) * World))
      !! "task_list" = None.
Proof.
  intros w.
  pose proof (get_malformed_payload (V:=jlit) rq0 client0 "result" 1 w "t" []
                {["result" := "{oops"]} "{oops") as W.
  rewrite W.
  - split; reflexivity.
  - reflexivity.
  - unfold reachable. vm_compute. apply not_elem_of_nil.
  - reflexivity.
  - reflexivity.
  - reflexivity.
  - reflexivity.
Defined.

Lemma dequeue_returns_head_witness :
  let w := mkWorld (<["task_ep-a_list" := RList ["t1"; "t2"]]> ∅) [] 0 [] [] 0 in
  fst (dequeue created_task eq0 0 w) = Ret (mkTask "t1" CREATED None)
  ∧ list_at (store (snd (dequeue created_task eq0 0 w))) "task_ep-a_list" = ["t2"].
Proof.
  intros w.
  pose proof (dequeue_returns_head created_task eq0 client0 0 w "t1" ["t2"]) as W.
  rewrite W.
  - split; reflexivity.
  - reflexivity.
  - reflexivity.
  - reflexivity.
Defined.

(** ** What the calls leave alone *)

Section frame_properties.
Context {V : Type} `{!Json V}.
Variable Task_from_id : option StrictRedis → string → Task.
Implicit Types (self : RedisQueue) (eself : EndpointQueue) (w : World).

(** [get] never changes a field of any record, whatever its outcome: a
    payload stays stored after it was fetched, and a [get] that fails after
    the pop has written nothing. *)
Theorem payload_records_untouched self kind timeout w (name key : string) :
  hfield (store (snd (get self kind timeout w))) name key
  = hfield (store w) name key.
Proof.
  destruct (redis_client self) as [rc|] eqn:Hrc;
    [|by rewrite get_unconnected].
  destruct (get_cases self rc kind timeout w Hrc)
    as [(-> & _) | (x & l & Hl & -> & _)]; [done|].
  by eapply hfield_popped.
Qed.

Lemma put_list_at self tid kind (payload : V) w name :
  list_at (store (snd (put self tid kind payload w))) name
  = list_at (store w) name
    ++ match fst (put self tid kind payload w) with
       | Ret _ => if decide (name = prefix self +:+ "_list") then [tid] else []
       | _ => []
       end.
Proof.
  destruct (put_cases self tid kind payload w) as [[] Hst]; simpl in Hst.
  - destruct Hst as (_ & -> & ->). by rewrite app_nil_r.
  - destruct Hst as ([-> | ->] & -> & _); by rewrite app_nil_r.
  - destruct Hst as (Hr & -> & _ & _ & _ & _ & _ & Hl).
    rewrite list_at_written_any by done.
    destruct Hr as [-> | ->]; by rewrite app_nil_r.
  - destruct Hst as (-> & Hne & -> & _ & _ & _ & _ & _ & Hl).
    rewrite list_at_pushed. case_decide as Hn.
    + subst name. by rewrite decide_True.
    + rewrite decide_False by done. rewrite list_at_written_any by done.
      by rewrite app_nil_r.
Qed.

Lemma enqueue_list_at eself task w name :
  list_at (store (snd (snd (enqueue eself (task, w))))) name
  = list_at (store w) name
    ++ match fst (enqueue eself (task, w)) with
       | Ret _ => if decide (name = queue_name eself) then [task_id task] else []
       | _ => []
       end.
Proof.
  destruct (enqueue_cases eself task w)
    as (_ & _ & [(-> & _ & ->)|[([-> | ->] & ->)|(-> & _ & ->)]]);
    rewrite ?app_nil_r; try done.
  rewrite list_at_pushed. case_decide as Hn.
  - subst name. by rewrite decide_True.
  - rewrite decide_False by done. by rewrite app_nil_r.
Qed.

(** [put] and [enqueue] only ever add at the tail: every list of the key
    space is as before, except that a call that returns has put its id at
    the end of its own list.  A call that fails adds nothing, and an id
    already in the list is added again. *)
Theorem pushes_only_append self eself tid kind (payload : V) (task : Task) w
    (name : string) :
  list_at (store (snd (put self tid kind payload w))) name
    = list_at (store w) name
      ++ match fst (put self tid kind payload w) with
         | Ret _ => if decide (name = prefix self +:+ "_list") then [tid] else []
         | _ => []
         end
  ∧ list_at (store (snd (snd (enqueue eself (task, w))))) name
    = list_at (store w) name
      ++ match fst (enqueue eself (task, w)) with
         | Ret _ =>
             if decide (name = queue_name eself) then [task_id task] else []
         | _ => []
         end.
Proof. split; [apply put_list_at | apply enqueue_list_at]. Qed.

Lemma get_list_at self kind timeout w name :
  let r := get self kind timeout w in
  (name ≠ prefix self +:+ "_list" →
   list_at (store (snd r)) name = list_at (store w) name)
  ∧ (list_at (store (snd r)) name = list_at (store w) name
     ∨ list_at (store (snd r)) name = tail (list_at (store w) name))
  ∧ (∀ id (v : V), fst r = Ret (id, v) →
       list_at (store w) (prefix self +:+ "_list")
       = id :: list_at (store (snd r)) (prefix self +:+ "_list")).
Proof.
  simpl. destruct (redis_client self) as [rc|] eqn:Hrc;
    [|rewrite get_unconnected by done; simpl; split_and!; auto; done].
  destruct (get_cases self rc kind timeout w Hrc)
    as [(-> & Hc) | (x & l & Hl & -> & _ & Hc)].
  - split_and!; auto. intros id v Hr. rewrite Hr in Hc.
    destruct Hc as [(?&_)|[(?&_)|[(?&_)|(?&_)]]]; done.
  - split_and!.
    + intros Hn. by apply list_at_popped_ne.
    + destruct (decide (prefix self +:+ "_list" = name)) as [<-|Hn].
      * right. rewrite list_at_popped. unfold list_at. by rewrite Hl.
      * left. by apply list_at_popped_ne.
    + intros id v Hr. rewrite Hr in Hc. rewrite list_at_popped.
      unfold list_at. rewrite Hl.
      destruct Hc as [(?&_)|[(?&_)|[(?&_)|[(?&?&_)|(?&?&?&_)]]]];
        congruence.
Qed.

Lemma dequeue_list_at eself timeout w name :
  let r := dequeue Task_from_id eself timeout w in
  (name ≠ queue_name eself →
   list_at (store (snd r)) name = list_at (store w) name)
  ∧ (list_at (store (snd r)) name = list_at (store w) name
     ∨ list_at (store (snd r)) name = tail (list_at (store w) name))
  ∧ (∀ task, fst r = Ret task →
       ∃ id, task = Task_from_id (redis_client (super eself)) id
         ∧ list_at (store w) (queue_name eself)
           = id :: list_at (store (snd r)) (queue_name eself)).
Proof.
  simpl. destruct (redis_client (super eself)) as [rc|] eqn:Hrc;
    [|rewrite dequeue_unconnected by done; simpl; split_and!; auto; done].
  destruct (dequeue_cases Task_from_id eself rc timeout w Hrc)
    as (_ & [(-> & Hc) | (x & l & Hl & -> & _ & Hr)]).
  - split_and!; auto. intros task Hr. rewrite Hr in Hc.
    destruct Hc as [(?&_)|[(?&_)|[(?&_)|(?&_)]]]; done.
  - split_and!.
    + intros Hn. by apply list_at_popped_ne.
    + destruct (decide (queue_name eself = name)) as [<-|Hn].
      * right. rewrite list_at_popped. unfold list_at. by rewrite Hl.
      * left. by apply list_at_popped_ne.
    + intros task Ht. rewrite Hr in Ht. injection Ht as <-.
      exists x. rewrite list_at_popped. unfold list_at. by rewrite Hl.
Qed.

(** [get] and [dequeue] only ever take the head of their own list: every
    other list is as before, their own list is as before or has lost its
    first id, and what a call returns is that first id (for [dequeue], the
    task looked up for it). *)
Theorem pops_only_take_the_head self eself kind timeout w (name : string) :
  let rg := get self kind timeout w in
  let rd := dequeue Task_from_id eself timeout w in
  (name ≠ prefix self +:+ "_list" →
   list_at (store (snd rg)) name = list_at (store w) name)
  ∧ (list_at (store (snd rg)) name = list_at (store w) name
     ∨ list_at (store (snd rg)) name = tail (list_at (store w) name))
  ∧ (∀ id (v : V), fst rg = Ret (id, v) →
       list_at (store w) (prefix self +:+ "_list")
       = id :: list_at (store (snd rg)) (prefix self +:+ "_list"))
  ∧ (name ≠ queue_name eself →
     list_at (store (snd rd)) name = list_at (store w) name)
  ∧ (list_at (store (snd rd)) name = list_at (store w) name
     ∨ list_at (store (snd rd)) name = tail (list_at (store w) name))
  ∧ (∀ task, fst rd = Ret task →
       ∃ id, task = Task_from_id (redis_client (super eself)) id
         ∧ list_at (store w) (queue_name eself)
           = id :: list_at (store (snd rd)) (queue_name eself)).
Proof.
  intros rg rd.
  destruct (get_list_at self kind timeout w name) as (? & ? & ?).
  destruct (dequeue_list_at eself timeout w name) as (? & ? & ?).
  split_and!; done.
Qed.

End frame_properties.

(** ** Queue names *)

Lemma ascii_list_of_app (s1 s2 : string) :
  String.list_ascii_of_string (s1 +:+ s2)
  = String.list_ascii_of_string s1 ++ String.list_ascii_of_string s2.
Proof. induction s1 as [|a s1 IH]; [done|]. simpl. by rewrite <- IH. Qed.

Lemma string_app_inj_r (s x y : string) : x +:+ s = y +:+ s → x = y.
Proof.
  intros Heq. apply (f_equal String.list_ascii_of_string) in Heq.
  rewrite !ascii_list_of_app in Heq. apply app_inv_tail in Heq.
  apply (f_equal String.string_of_list_ascii) in Heq.
  by rewrite !String.string_of_list_ascii_of_string in Heq.
Qed.

Lemma well_named_queue_name (q : EndpointQueue) :
  well_named q → queue_name q = "task_" +:+ endpoint q +:+ "_list".
Proof.
  intros [Hp Hq]. rewrite Hq, Hp. reflexivity.
Qed.

Lemma queue_name_inj (q1 q2 : EndpointQueue) :
  well_named q1 → well_named q2 →
  queue_name q1 = queue_name q2 → endpoint q1 = endpoint q2.
Proof.
  intros H1 H2. rewrite !well_named_queue_name by done. intros Heq.
  apply (inj (String.app "task_")) in Heq. by apply string_app_inj_r in Heq.
Qed.

(** [EndpointQueue.__init__] names the queue after its endpoint, and the
    inherited [connect] keeps the names: endpoint, prefix and list key are
    as the constructor set them, and the queue holds a handle exactly when
    the call returns. *)
Theorem endpoint_queue_names_kept (e hostname : string) (port : Z)
    (q : EndpointQueue) (w : World) :
  well_named (EndpointQueue_init e hostname port)
  ∧ endpoint (EndpointQueue_init e hostname port) = e
  ∧ (let r := connect_endpoint (q, w) in
     endpoint (fst (snd r)) = endpoint q
     ∧ queue_name (fst (snd r)) = queue_name q
     ∧ prefix (super (fst (snd r))) = prefix (super q)
     ∧ (fst r = Ret tt ↔ is_connected (super (fst (snd r))) = true)).
Proof.
  split_and!; try done. unfold connect_endpoint. simpl.
  rewrite connect_run. unfold is_connected.
  destruct (redis_client (super q)) as [rc|] eqn:Hrc; simpl.
  - rewrite Hrc. split_and!; done.
  - split_and!; done.
Qed.

Section endpoint_properties.
Context {V : Type} `{!Json V}.
Variable Task_from_id : option StrictRedis → string → Task.
Implicit Types (self : RedisQueue) (eself : EndpointQueue) (w : World).

(** Queues of different endpoints have different list keys, so [enqueue]
    and [dequeue] on one never change the list of the other. *)
Theorem endpoints_do_not_share_lists (q1 q2 : EndpointQueue) (task : Task)
    timeout w :
  well_named q1 → well_named q2 → endpoint q1 ≠ endpoint q2 →
  queue_name q1 ≠ queue_name q2
  ∧ list_at (store (snd (snd (enqueue q1 (task, w))))) (queue_name q2)
    = list_at (store w) (queue_name q2)
  ∧ list_at (store (snd (dequeue Task_from_id q1 timeout w))) (queue_name q2)
    = list_at (store w) (queue_name q2).
Proof.
  intros H1 H2 He.
  assert (queue_name q2 ≠ queue_name q1) as Hne.
  { intros Heq. apply He. symmetry. by apply queue_name_inj. }
  split_and!; [done| |].
  - rewrite enqueue_list_at. rewrite decide_False by done.
    destruct (fst _) as [[]| |]; apply app_nil_r.
  - by apply dequeue_list_at.
Qed.

Lemma dequeue_head eself rc timeout w x l :
  redis_client (super eself) = Some rc →
  server_up w = true →
  store w !! queue_name eself = Some (RList (x :: l)) →
  dequeue Task_from_id eself timeout w
  = (Ret (Task_from_id (Some rc) x),
     set_store (popped (store w) (queue_name eself) l)
       (issued (BLPOP (queue_name eself) timeout) w)).
Proof.
  intros Hrc Hup Hl. rewrite (dequeue_run _ _ rc) by done.
  rewrite blpop_run. simpl. by rewrite Hup, Hl.
Qed.

(** A task enqueued on an empty list comes back from the next [dequeue]:
    the lookup is called with the queue's handle and the task's id, the
    list is empty again, and no timeout is waited for. *)
Theorem enqueue_then_dequeue eself rc (task task' : Task) timeout w w1 :
  redis_client (super eself) = Some rc →
  empty_list (store w) (queue_name eself) →
  enqueue eself (task, w) = (Ret tt, (task', w1)) →
  server_up w1 = true →
  let r := dequeue Task_from_id eself timeout w1 in
  fst r = Ret (Task_from_id (Some rc) (task_id task))
  ∧ store (snd r) !! queue_name eself = None
  ∧ clock (snd r) = clock w1.
Proof.
  intros Hrc Hl He Hup r. subst r.
  destruct (enqueue_cases eself task w) as (_ & _ & Hc).
  rewrite He in Hc. simpl in Hc.
  destruct Hc as [(? & _)|[([?|?] & _)|(_ & _ & Hs)]]; try done.
  assert (list_at (store w) (queue_name eself) = []) as Hnil.
  { unfold list_at. by destruct Hl as [-> | ->]. }
  rewrite Hnil in Hs. simpl in Hs.
  rewrite (dequeue_head _ rc _ _ (task_id task) []); try done.
  - simpl. split_and!; [done| |done]. apply lookup_delete_eq.
  - rewrite Hs. apply lookup_insert_eq.
Qed.

(** [put] is inherited by the endpoint queue and pushes on the list
    [dequeue] pops: on an empty list, a [put] that returns is followed by a
    [dequeue] that returns the task looked up for the id that was put. *)
Theorem put_then_dequeue eself rc tid kind (payload : V) timeout w w1 :
  well_named eself →
  redis_client (super eself) = Some rc →
  empty_list (store w) (queue_name eself) →
  put (super eself) tid kind payload w = (Ret tt, w1) →
  server_up w1 = true →
  fst (dequeue Task_from_id eself timeout w1) = Ret (Task_from_id (Some rc) tid).
Proof.
  intros [_ Hq] Hrc Hl Hput Hup.
  destruct (put_cases (super eself) tid kind payload w) as [[] Hst];
    rewrite Hput in Hst; simpl in Hst;
    [by destruct Hst as (_ & ? & _) | by destruct Hst as ([?|?] & _)
    | by destruct Hst as ([?|?] & _) |].
  destruct Hst as (_ & _ & Hs & _). rewrite <- Hq in Hs.
  assert (list_at (store w) (queue_name eself) = []) as Hnil.
  { unfold list_at. by destruct Hl as [-> | ->]. }
  rewrite Hnil in Hs. simpl in Hs.
  rewrite (dequeue_head _ rc _ _ tid []); try done.
  rewrite Hs. apply lookup_insert_eq.
Qed.

(** ** First in, first out *)

Lemma elem_of_take_more (n : nat) : ∀ l : list bool,
  false ∈ take n l → false ∈ take (S n) l.
Proof.
  induction n as [|n IH]; intros [|b l] Hin;
    simpl in *; try (by apply not_elem_of_nil in Hin).
  apply elem_of_cons in Hin as [Hb|Hin].
  - rewrite <- Hb. left.
  - right. by apply IH.
Qed.

Lemma reachable_fewer n w : reachable (S n) w → reachable n w.
Proof.
  unfold reachable. intros Hr Hin. apply Hr. by apply elem_of_take_more.
Qed.

Lemma enqueue_all_spec eself tasks : ∀ w tasks' w',
  enqueue_all eself tasks w = (Ret tasks', w') →
  let qn := queue_name eself in
  tasks' = map (λ t, mkTask (task_id t) WAITING_FOR_EP (Some (endpoint eself)))
             tasks
  ∧ list_at (store w') qn = list_at (store w) qn ++ map task_id tasks
  ∧ (tasks ≠ [] ∨ store w !! qn = Some (RList (list_at (store w) qn)) →
     store w' !! qn = Some (RList (list_at (store w') qn))).
Proof.
  induction tasks as [|task rest IH]; intros w tasks' w' Hall qn; simpl in Hall.
  - injection Hall as <- <-. rewrite app_nil_r.
    split_and!; [done|done|]. by intros [?|?].
  - destruct (enqueue_cases eself task w) as (_ & _ & Hc).
    pose proof (enqueue_run eself task w) as Hrun. simpl in Hrun.
    destruct (enqueue eself (task, w)) as [[[]|e|] [task1 w1]] eqn:He;
      simpl in *; [|done|done].
    destruct Hc as [(? & _)|[([?|?] & _)|(_ & _ & Hs)]]; try done.
    destruct (enqueue_all eself rest w1) as [[rest'|e|] w2] eqn:Hrest;
      [|done|done].
    injection Hall as <- <-.
    destruct (IH _ _ _ Hrest) as (-> & Hl & Hk). fold qn in Hs, Hl, Hk.
    assert (list_at (store w1) qn = list_at (store w) qn ++ [task_id task])
      as Hl1.
    { rewrite Hs. unfold list_at at 1. by rewrite lookup_insert_eq. }
    split_and!.
    + f_equal. destruct (redis_client (super eself)); [|done].
      destruct (rpush _ _ _ _) as [[?|?|] ?]; by simplify_eq.
    + rewrite Hl, Hl1. by rewrite <- (assoc_L (++)).
    + intros _. apply Hk. right. rewrite Hl1, Hs. apply lookup_insert_eq.
Qed.

Lemma dequeue_n_spec eself rc timeout (l : list string) : ∀ w,
  redis_client (super eself) = Some rc →
  store w !! queue_name eself = Some (RList l) ∨ l = [] →
  reachable (length l) w →
  fst (dequeue_n Task_from_id eself timeout (length l) w)
    = Ret (map (Task_from_id (Some rc)) l)
  ∧ (l ≠ [] →
     store (snd (dequeue_n Task_from_id eself timeout (length l) w))
       !! queue_name eself = None).
Proof.
  induction l as [|x l IH]; intros w Hrc Hl Hup; simpl; [done|].
  destruct Hl as [Hl|?]; [|done].
  unfold bind, ret.
  rewrite (dequeue_head _ rc _ _ x l); [|done|by eapply server_up_reachable|done].
  set (w1 := set_store _ _).
  assert (reachable (length l) w1) as Hup1 by by apply reachable_issued.
  assert (store w1 !! queue_name eself = Some (RList l) ∨ l = []) as Hl1.
  { subst w1. simpl. rewrite lookup_popped, decide_True by done.
    destruct l; auto. }
  destruct (IH w1 Hrc Hl1 Hup1) as [Hr Hs].
  destruct l as [|y l].
  - simpl. split; [done|]. intros _. apply lookup_delete_eq.
  - destruct (dequeue_n Task_from_id eself timeout (length (y :: l)) w1)
      as [[ts|e|] w2]; simpl in *; try done.
    injection Hr as ->. split; [done|]. intros _. by apply Hs.
Qed.

(** Tasks come out in the order they went in: after the tasks of a list
    were enqueued one by one on an empty list, as many calls of [dequeue]
    return the tasks looked up for their ids, in that order, and leave the
    list empty; every enqueued task carries the endpoint and
    WAITING_FOR_EP. *)
Theorem enqueue_dequeue_fifo eself rc (tasks tasks' : list Task) timeout w w1 :
  redis_client (super eself) = Some rc →
  empty_list (store w) (queue_name eself) →
  enqueue_all eself tasks w = (Ret tasks', w1) →
  reachable (length tasks) w1 →
  tasks' = map (λ t, mkTask (task_id t) WAITING_FOR_EP (Some (endpoint eself)))
             tasks
  ∧ list_at (store w1) (queue_name eself) = map task_id tasks
  ∧ fst (dequeue_n Task_from_id eself timeout (length tasks) w1)
    = Ret (map (λ t, Task_from_id (Some rc) (task_id t)) tasks)
  ∧ list_at (store (snd (dequeue_n Task_from_id eself timeout
                           (length tasks) w1))) (queue_name eself) = [].
Proof.
  intros Hrc Hl Hall Hup.
  destruct (enqueue_all_spec _ _ _ _ _ Hall) as (Ht & Hlist & Hk).
  assert (list_at (store w) (queue_name eself) = []) as Hnil.
  { unfold list_at. by destruct Hl as [-> | ->]. }
  rewrite Hnil in Hlist. simpl in Hlist.
  assert (store w1 !! queue_name eself = Some (RList (map task_id tasks))
          ∨ map task_id tasks = []) as Hl1.
  { destruct tasks as [|t ts]; [by right|]. left.
    rewrite <- Hlist. apply Hk. by left. }
  destruct (dequeue_n_spec eself rc timeout (map task_id tasks) w1 Hrc Hl1)
    as [Hr Hs]; [by rewrite length_map|].
  rewrite length_map in Hr, Hs. split_and!; [done|done| |].
  - rewrite Hr. by rewrite map_map.
  - destruct tasks as [|t ts].
    + simpl. by rewrite Hlist.
    + unfold list_at. by rewrite Hs.
Qed.

End endpoint_properties.

(** ** A task id that names the list *)

(** When [task_<task_id>] is the list key of the queue, [put] never
    returns and pushes nothing; on a connected queue with the server
    answering and the key free, it raises [ResponseError] and leaves a hash
    under the list key, after which [get] raises [ResponseError] too. *)
Theorem put_on_the_list_key `{Json V} (self : RedisQueue) (rc : StrictRedis)
    (tid kind kind' : string) (payload : V) (timeout : N) (w : World) :
  "task_" +:+ tid = prefix self +:+ "_list" →
  redis_client self = Some rc →
  reachable 3 w →
  store w !! (prefix self +:+ "_list") = None →
  let r := put self tid kind payload w in
  fst r = Raise (ResponseError WRONGTYPE)
  ∧ store (snd r) !! (prefix self +:+ "_list")
    = Some (RHash {[kind := json_dumps payload]})
  ∧ fst (get self kind' timeout (snd r)) = Raise (ResponseError WRONGTYPE).
Proof.
  intros Hk Hrc Hup Hfree r. subst r.
  rewrite (put_run _ rc) by done. rewrite Hk, hset_run. simpl.
  rewrite (server_up_reachable 2) by done. rewrite Hfree. simpl.
  rewrite rpush_run. simpl.
  assert (reachable 2 (issued (HSET (prefix self +:+ "_list") kind
                                 (json_dumps payload)) w)) as Hup1
    by by apply reachable_issued.
  replace (server_up (set_store _ _)) with true
    by (symmetry; exact (server_up_reachable 1 _ Hup1)).
  rewrite lookup_insert_eq. simpl. split_and!; [done|apply lookup_insert_eq|].
  rewrite (get_run _ rc) by done. rewrite blpop_run. simpl.
  match goal with
  | |- context [server_up ?w2] =>
      assert (server_up w2 = true) as ->
  end.
  { apply (server_up_reachable 0).
    apply (reachable_issued 1 (RPUSH (prefix self +:+ "_list") tid)) in Hup1.
    exact Hup1. }
  by rewrite lookup_insert_eq.
Qed.

Lemma put_on_the_list_key_witness :
  let q := super eq0 in
  fst (put q "ep-a_list" "result" JTrue world0) = Raise (ResponseError WRONGTYPE)
  ∧ store (snd (put q "ep-a_list" "result" JTrue world0)) !! "task_ep-a_list"
    = Some (RHash {["result" := "true"]})
  ∧ fst (get q "result" 1 (snd (put q "ep-a_list" "result" JTrue world0)))
    = (Raise (ResponseError WRONGTYPE) : outcome (string * jlit)).
Proof.
  intros q.
  pose proof (put_on_the_list_key q client0 "ep-a_list" "result" "result"
                JTrue 1 world0) as W.
  apply W.
  - reflexivity.
  - reflexivity.
  - unfold reachable. vm_compute. apply not_elem_of_nil.
  - reflexivity.
Defined.

(** ** Text forms *)

(** The text of a queue does not depend on its connection, and between
    queues on the same host and port it tells the prefixes apart; so does
    the text of [NotConnected]. *)
Theorem texts_tell_prefixes_apart (q1 q2 : RedisQueue) (c : option StrictRedis) :
  hostname q1 = hostname q2 →
  port q1 = port q2 →
  RedisQueue_str (set_redis_client c q1) = RedisQueue_str q1
  ∧ (RedisQueue_str q1 = RedisQueue_str q2 ↔ prefix q1 = prefix q2)
  ∧ (NotConnected_repr q1 = NotConnected_repr q2 ↔ prefix q1 = prefix q2).
Proof.
  intros Hh Hp.
  assert (RedisQueue_str q1 = RedisQueue_str q2 ↔ prefix q1 = prefix q2) as Hs.
  { unfold RedisQueue_str, RedisQueue_repr. rewrite Hh, Hp.
    split; [|by intros ->]. intros Heq.
    apply (inj (String.app _)) in Heq. apply (inj (String.app _)) in Heq.
    apply (inj (String.app _)) in Heq. apply (inj (String.app _)) in Heq.
    by apply (inj (String.app _)) in Heq. }
  split_and!; [done|done|].
  rewrite <- Hs. unfold NotConnected_repr. split; [|by intros ->].
  intros Heq. apply (inj (String.app _)) in Heq.
  by apply string_app_inj_r in Heq.
Qed.

Lemma texts_tell_prefixes_apart_witness :
  RedisQueue_str rq0 = "<RedisQueue at 127.0.0.1:6379#task"
  ∧ RedisQueue_str rq0 ≠ RedisQueue_str (super eq0)
  ∧ NotConnected_repr rq0 ≠ NotConnected_repr (super eq0).
Proof.
  pose proof (texts_tell_prefixes_apart rq0 (super eq0) None) as W.
  destruct W as (_ & Hs & Hn); [reflexivity..|].
  split_and!; [reflexivity| |].
  - intros Heq. apply Hs in Heq. vm_compute in Heq. discriminate.
  - intros Heq. apply Hn in Heq. vm_compute in Heq. discriminate.
Defined.

(** [enqueue] on a connected queue whose list is empty, with the server
    answering. *)
Lemma enqueue_empty (eself : EndpointQueue) rc task w :
  redis_client (super eself) = Some rc →
  server_up w = true →
  empty_list (store w) (queue_name eself) →
  enqueue eself (task, w)
  = (Ret tt,
     (mkTask (task_id task) WAITING_FOR_EP (Some (endpoint eself)),
      set_store (<[queue_name eself := RList [task_id task]]> (store w))
        (issued (RPUSH (queue_name eself) (task_id task)) w))).
Proof.
  intros Hrc Hup Hl. rewrite enqueue_run, Hrc, rpush_run. simpl. rewrite Hup.
  by destruct Hl as [-> | ->].
Qed.

(** ** From the constructor to the first task *)

(** An endpoint queue as the constructor makes it, connected by one call of
    [connect] and given one task, hands the task back: on a server that
    answers, with the list of the endpoint empty, [connect] builds one
    client, [enqueue] returns, and [dequeue] returns the task looked up for
    the task's id with that client. *)
Theorem fresh_endpoint_queue_round_trip
    (Task_from_id : option StrictRedis → string → Task)
    (e hostname : string) (port : Z) (task : Task) (timeout : N) (w : World) :
  reachable 3 w →
  empty_list (store w) ("task_" +:+ e +:+ "_list") →
  let s1 := connect_endpoint (EndpointQueue_init e hostname port, w) in
  let q := fst (snd s1) in
  let s2 := enqueue q (task, snd (snd s1)) in
  let s3 := dequeue Task_from_id q timeout (snd (snd s2)) in
  let client := mkStrictRedis (made w) hostname port true in
  fst s1 = Ret tt
  ∧ redis_client (super q) = Some client
  ∧ fst s2 = Ret tt
  ∧ fst (snd s2) = mkTask (task_id task) WAITING_FOR_EP (Some e)
  ∧ fst s3 = Ret (Task_from_id (Some client) (task_id task))
  ∧ list_at (store (snd s3)) ("task_" +:+ e +:+ "_list") = [].
Proof.
  intros Hup Hl.
  set (q0 := EndpointQueue_init e hostname port).
  set (client := mkStrictRedis (made w) hostname port true).
  set (q := mkEndpointQueue (set_redis_client (Some client) (super q0))
              (queue_name q0) (endpoint q0)).
  set (w1 := set_made (S (made w)) w).
  assert (connect_endpoint (q0, w) = (Ret tt, (q, w1))) as Hconn.
  { unfold connect_endpoint. by rewrite connect_run. }
  rewrite Hconn. simpl fst. simpl snd.
  assert (reachable 2 w1) as Hup1 by by apply (reachable_fewer 2).
  assert (redis_client (super q) = Some client) as Hrc by done.
  assert (empty_list (store w1) (queue_name q)) as Hl1 by exact Hl.
  assert (endpoint q = e) as Hend by done.
  assert ("task_" +:+ e +:+ "_list" = queue_name q) as -> by done.
  clearbody q w1. clear Hconn. intros s1 q1 s2 s3 client1.
  subst s1 q1 s2 s3 client1.
  rewrite (enqueue_empty q client task w1 Hrc (server_up_reachable 1 _ Hup1) Hl1).
  simpl fst. simpl snd. rewrite Hend.
  set (w2 := set_store _ _).
  assert (server_up w2 = true) as Hup2.
  { apply (server_up_reachable 0).
    by apply (reachable_issued 1 (RPUSH (queue_name q) (task_id task))) in Hup1. }
  rewrite (dequeue_head Task_from_id q client timeout w2 (task_id task) []);
    [|done|done|apply lookup_insert_eq].
  simpl. split_and!; try done.
  unfold list_at. by rewrite lookup_delete_eq.
Qed.

Lemma fresh_endpoint_queue_round_trip_witness :
  let s1 := connect_endpoint
              (EndpointQueue_init "ep-a" "127.0.0.1" default_port, world0) in
  let s2 := enqueue (fst (snd s1)) (mkTask "t1" CREATED None, snd (snd s1)) in
  fst (dequeue created_task (fst (snd s1)) 2 (snd (snd s2)))
  = Ret (mkTask "t1" CREATED None).
Proof.
  intros s1 s2.
  pose proof (fresh_endpoint_queue_round_trip created_task "ep-a" "127.0.0.1"
                default_port (mkTask "t1" CREATED None) 2 world0) as W.
  destruct W as (_ & _ & _ & _ & H5 & _).
  - unfold reachable. vm_compute. apply not_elem_of_nil.
  - left. reflexivity.
  - exact H5.
Defined.

(** ** The further properties on concrete runs *)

Lemma endpoints_do_not_share_lists_witness :
  queue_name eq0 ≠ queue_name (connected_endpoint "ep-b")
  ∧ list_at (store (snd (snd (enqueue eq0 (mkTask "t1" CREATED None, world0)))))
      "task_ep-b_list" = [].
Proof.
  pose proof (endpoints_do_not_share_lists created_task eq0
                (connected_endpoint "ep-b") (mkTask "t1" CREATED None) 1 world0)
    as W.
  destruct W as (Hn & He & _).
  - split; reflexivity.
  - split; reflexivity.
  - vm_compute. discriminate.
  - split; [exact Hn | exact He].
Defined.

Lemma enqueue_then_dequeue_witness :
  let s := snd (enqueue eq0 (mkTask "t1" CREATED None, world0)) in
  fst (dequeue created_task eq0 0 (snd s)) = Ret (mkTask "t1" CREATED None)
  ∧ store (snd (dequeue created_task eq0 0 (snd s))) !! "task_ep-a_list" = None.
Proof.
  intros s.
  pose proof (enqueue_then_dequeue created_task eq0 client0
                (mkTask "t1" CREATED None) (fst s) 0 world0 (snd s)) as W.
  destruct W as (Hr & Hs & _).
  - reflexivity.
  - left. reflexivity.
  - vm_compute. reflexivity.
  - reflexivity.
  - split; [exact Hr | exact Hs].
Defined.

Lemma put_then_dequeue_witness :
  fst (dequeue created_task eq0 1
         (snd (put (super eq0) "t1" "result" JTrue world0)))
  = Ret (mkTask "t1" CREATED None).
Proof.
  pose proof (put_then_dequeue created_task eq0 client0 "t1" "result" JTrue 1
                world0 (snd (put (super eq0) "t1" "result" JTrue world0))) as W.
  apply W.
  - split; reflexivity.
  - reflexivity.
  - left. reflexivity.
  - vm_compute. reflexivity.
  - reflexivity.
Defined.

Lemma enqueue_dequeue_fifo_witness :
  let tasks := [mkTask "t1" CREATED None; mkTask "t2" RUNNING (Some "ep-z");
                mkTask "t3" FAILED None] in
  let r := enqueue_all eq0 tasks world0 in
  list_at (store (snd r)) "task_ep-a_list" = ["t1"; "t2"; "t3"]
  ∧ fst (dequeue_n created_task eq0 1 3 (snd r))
    = Ret [mkTask "t1" CREATED None; mkTask "t2" CREATED None;
           mkTask "t3" CREATED None].
Proof.
  intros tasks r.
  pose proof (enqueue_dequeue_fifo created_task eq0 client0 tasks
                (map (λ t, mkTask (task_id t) WAITING_FOR_EP (Some "ep-a")) tasks)
                1 world0 (snd r)) as W.
  destruct W as (_ & Hl & Hd & _).
  - reflexivity.
  - left. reflexivity.
  - vm_compute. reflexivity.
  - unfold reachable. vm_compute. apply not_elem_of_nil.
  - split; [exact Hl | exact Hd].
Defined.

(** A [get] or [dequeue] that raises [Empty] has changed nothing in the key
    space and printed nothing, so the caller can simply call again; it was
    given a timeout other than 0. *)
Theorem empty_changes_nothing `{Json V}
    (Task_from_id : option StrictRedis → string → Task)
    (self : RedisQueue) (eself : EndpointQueue) (kind : string) (timeout : N)
    (w : World) :
  (fst (get self kind timeout w) = Raise Empty →
   store (snd (get self kind timeout w)) = store w
   ∧ stdout (snd (get self kind timeout w)) = stdout w
   ∧ timeout ≠ 0%N
   ∧ list_at (store w) (prefix self +:+ "_list") = [])
  ∧ (fst (dequeue Task_from_id eself timeout w) = Raise Empty →
     store (snd (dequeue Task_from_id eself timeout w)) = store w
     ∧ stdout (snd (dequeue Task_from_id eself timeout w)) = stdout w
     ∧ timeout ≠ 0%N
     ∧ list_at (store w) (queue_name eself) = []).
Proof.
  split.
  - intros Hr. destruct (redis_client self) as [rc|] eqn:Hrc;
      [|by rewrite get_unconnected in Hr].
    destruct (get_cases self rc kind timeout w Hrc)
      as [(Hs & Hc) | (x & l & _ & _ & _ & Hc)]; rewrite Hr in Hc.
    + destruct Hc as [(?&_)|[(?&_)|[(?&_)|(_ & Ht & Ho & He)]]]; try done.
      split_and!; try done. unfold list_at. by destruct He as [-> | ->].
    + destruct Hc as [(?&_)|[(?&_)|[(?&_)|[(?&?&_)|(?&?&?&_)]]]]; done.
  - intros Hr. destruct (redis_client (super eself)) as [rc|] eqn:Hrc;
      [|by rewrite dequeue_unconnected in Hr].
    destruct (dequeue_cases Task_from_id eself rc timeout w Hrc)
      as (Ho & [(Hs & Hc) | (x & l & _ & _ & _ & Hc)]); rewrite Hr in Hc;
      [|done].
    destruct Hc as [(?&_)|[(?&_)|[(?&_)|(_ & Ht & He)]]]; try done.
    split_and!; try done. unfold list_at. by destruct He as [-> | ->].
Qed.
